(** * merge-to-md: a shallow embedding of [src/index.js]

    The program walks a directory tree, collects the files that survive the
    exclude patterns, and concatenates them into one Markdown document.
    Every function of [index.js] that the properties below talk about is
    transcribed here as a Rocq function.  What the program takes from its
    host (the regular-expression engine, [String.prototype.localeCompare],
    the npm package [isbinaryfile], the file system) is a parameter of the
    embedding, gathered in the records [Runtime] and [FileSystem]. *)

From Stdlib Require Import Strings.String Strings.Ascii Strings.Byte.
From Stdlib Require Import Lists.List Bool.Bool Arith.Arith ZArith.ZArith Lia.
From Stdlib Require Import Sorting.Permutation Sorting.Sorted.
Import ListNotations.

Open Scope string_scope.
Open Scope list_scope.

Set Implicit Arguments.

(* ================================================================== *)
(** * JavaScript strings and numbers *)
(* ================================================================== *)

(** Strings are sequences of 8-bit characters: the document is kept as the
    UTF-8 byte string that [writeFile(..., 'utf8')] stores. *)

(** ['`'.repeat(n)] *)
Fixpoint repeat_str (s : string) (n : nat) : string :=
  match n with
  | O => EmptyString
  | S n' => (s ++ repeat_str s n')%string
  end.

(** [s.split(c)] for a one-character separator. *)
Fixpoint split_on (c : ascii) (s : string) : list string :=
  match s with
  | EmptyString => [EmptyString]
  | String a s' =>
      if Ascii.eqb a c then EmptyString :: split_on c s'
      else match split_on c s' with
           | [] => [String a EmptyString]
           | x :: xs => String a x :: xs
           end
  end.

(** [l.join(sep)] *)
Definition join (sep : string) (l : list string) : string := String.concat sep l.

(** [s.startsWith(p)] *)
Definition startsWith (s p : string) : bool := String.prefix p s.

Definition is_space (c : ascii) : bool :=
  let n := nat_of_ascii c in
  ((n =? 32) || ((9 <=? n) && (n <=? 13)))%nat.

Fixpoint trim_start (s : string) : string :=
  match s with
  | String c s' => if is_space c then trim_start s' else s
  | EmptyString => EmptyString
  end.

Fixpoint trim_end (s : string) : string :=
  match s with
  | EmptyString => EmptyString
  | String c s' =>
      match trim_end s' with
      | EmptyString => if is_space c then EmptyString else String c EmptyString
      | t => String c t
      end
  end.

(** [s.trim()], on ASCII white space. *)
Definition trim (s : string) : string := trim_end (trim_start s).

Definition lower_ascii (c : ascii) : ascii :=
  let n := nat_of_ascii c in
  if ((65 <=? n) && (n <=? 90))%nat then ascii_of_nat (n + 32) else c.

(** [s.toLowerCase()], on ASCII letters. *)
Fixpoint toLowerCase (s : string) : string :=
  match s with
  | EmptyString => EmptyString
  | String c s' => String (lower_ascii c) (toLowerCase s')
  end.

(** A value read where JavaScript may hand back [null] or [undefined] is an
    [option string]; [!x] is true of [null], [undefined] and the empty
    string. *)
Definition falsy (x : option string) : bool :=
  match x with
  | None => true
  | Some s => String.eqb s ""
  end.

(** The numbers [maxDepth] can hold: [Infinity] by default, whatever
    [Number(...)] made of the command-line word otherwise. *)
Inductive jsnum : Type :=
| JNaN
| JInf
| JNegInf
| JFin (z : Z).

(** [currentDepth > maxDepth]; every comparison with [NaN] is false. *)
Definition gt_num (currentDepth : nat) (maxDepth : jsnum) : bool :=
  match maxDepth with
  | JNaN => false
  | JInf => false
  | JNegInf => true
  | JFin z => (z <? Z.of_nat currentDepth)%Z
  end.

Definition is_digit (c : ascii) : bool :=
  let n := nat_of_ascii c in ((48 <=? n) && (n <=? 57))%nat.

Fixpoint digits_value (s : string) (acc : Z) : option Z :=
  match s with
  | EmptyString => Some acc
  | String c s' =>
      if is_digit c
      then digits_value s' (10 * acc + Z.of_nat (nat_of_ascii c - 48))%Z
      else None
  end.

(** [Number(x)] on the words a depth is written with: [undefined] is [NaN],
    the empty (or blank) string is [0], an optionally signed run of decimal
    digits is that integer, [Infinity] is itself.  Fractions, exponents and
    radix prefixes are outside this model and read as [NaN]. *)
Definition Number_ (x : option string) : jsnum :=
  match x with
  | None => JNaN
  | Some s =>
      let t := trim s in
      if String.eqb t "" then JFin 0
      else if String.eqb t "Infinity" || String.eqb t "+Infinity" then JInf
      else if String.eqb t "-Infinity" then JNegInf
      else match t with
           | String "-" (String c r) =>
               match digits_value (String c r) 0 with
               | Some z => JFin (- z)
               | None => JNaN
               end
           | String "+" (String c r) =>
               match digits_value (String c r) 0 with
               | Some z => JFin z
               | None => JNaN
               end
           | _ =>
               match digits_value t 0 with
               | Some z => JFin z
               | None => JNaN
               end
           end
  end.

(* ================================================================== *)
(** * Paths (Node's [path] module on POSIX) *)
(* ================================================================== *)

(** An absolute, normalised path is the list of its segments below [/]:
    what [path.resolve] returns.  [path_str] is the string the program
    sees. *)
Definition path : Type := list string.

Definition path_str (p : path) : string := ("/" ++ join "/" p)%string.

(** One step of normalisation: an empty segment and [.] are dropped, [..]
    climbs one level (and stays at the root), anything else is appended. *)
Definition push_segment (base : path) (seg : string) : path :=
  if String.eqb seg "" || String.eqb seg "." then base
  else if String.eqb seg ".." then removelast base
  else base ++ [seg].

Definition normalize_onto (base : path) (segs : list string) : path :=
  fold_left push_segment segs base.

(** [path.resolve(s)] in working directory [cwd]. *)
Definition path_resolve (cwd : path) (s : string) : path :=
  if startsWith s "/" then normalize_onto [] (split_on "/" s)
  else normalize_onto cwd (split_on "/" s).

(** [path.join(dir, name)] for an absolute, normalised [dir]. *)
Definition path_join (dir : path) (name : string) : path :=
  normalize_onto dir (split_on "/" name).

Fixpoint strip_common (from to : path) : path * path :=
  match from, to with
  | a :: from', b :: to' =>
      if String.eqb a b then strip_common from' to' else (from, to)
  | _, _ => (from, to)
  end.

(** [path.relative(from, to)]: one [..] for each segment of [from] below the
    common ancestor, then what remains of [to]. *)
Definition path_relative (from to : path) : string :=
  let '(up, down) := strip_common from to in
  join "/" (map (fun _ => "..") up ++ down).

(** The suffix of [s] that starts at its last dot, if it has a dot. *)
Fixpoint last_dot (s : string) : option string :=
  match s with
  | EmptyString => None
  | String c s' =>
      match last_dot s' with
      | Some e => Some e
      | None => if Ascii.eqb c "." then Some s else None
      end
  end.

(** The last portion of a path: trailing separators are ignored. *)
Definition basename (p : string) : string :=
  last (filter (fun s => negb (String.eqb s "")) (split_on "/" p)) "".

(** [path.extname(p)]: from the last dot of the last portion of the path to
    its end; empty when that portion has no dot, when its only dot is its
    first character, and for the portion [..]. *)
Definition extname (p : string) : string :=
  match basename p with
  | EmptyString => ""
  | String c0 b' =>
      match last_dot b' with
      | None => ""
      | Some e => if String.eqb (String c0 b') ".." then "" else e
      end
  end.

(* ================================================================== *)
(** * What the host provides *)
(* ================================================================== *)

(** The JavaScript engine and the one npm dependency.  [RegExp_new] is
    [new RegExp(s)], with [None] for the [SyntaxError] it throws on a
    malformed pattern; [RegExp_test] is [r.test(str)] on a pattern without
    flags; [localeCompare_base a b] is
    [a.localeCompare(b, undefined, { sensitivity: "base" })];
    [isBinaryFileSync] is the function of that name of [isbinaryfile]. *)
Record Runtime : Type := {
  RegExp : Type;
  RegExp_new : string -> option RegExp;
  RegExp_test : RegExp -> string -> bool;
  localeCompare_base : string -> string -> Z;
  isBinaryFileSync : list byte -> nat -> bool
}.

(** What [readdir(dir, { withFileTypes: true })] says of an entry: exactly
    one of [isDirectory()], [isFile()], [isSymbolicLink()] holds, or none. *)
Inductive EntKind : Type := KDir | KFile | KSymlink | KOther.

Record Dirent : Type := { name : string; kind : EntKind }.

(** What [stat] says of the object a path leads to, links followed. *)
Inductive StatKind : Type := SDir | SFile | SOther.

(** The file system as the program observes it.  [None] is a rejected
    promise; [fs_writeFile] tells whether the write succeeds. *)
Record FileSystem : Type := {
  fs_readdir : path -> option (list Dirent);
  fs_stat : path -> option StatKind;
  fs_realpath : path -> option path;
  fs_readFile : path -> option (list byte);
  fs_writeFile : path -> string -> bool
}.

(* ================================================================== *)
(** * [parseArgs] *)
(* ================================================================== *)

Definition DEFAULT_OUTPUT : string := "context.md".

Record Args : Type := {
  input : option string;
  exclude : option string;
  output : option string;
  help : bool;
  dryRun : bool;
  maxDepth : jsnum;
  followSymlinks : bool
}.

Definition set_input (a : Args) (v : option string) : Args :=
  {| input := v; exclude := exclude a; output := output a; help := help a;
     dryRun := dryRun a; maxDepth := maxDepth a;
     followSymlinks := followSymlinks a |}.
Definition set_exclude (a : Args) (v : option string) : Args :=
  {| input := input a; exclude := v; output := output a; help := help a;
     dryRun := dryRun a; maxDepth := maxDepth a;
     followSymlinks := followSymlinks a |}.
Definition set_output (a : Args) (v : option string) : Args :=
  {| input := input a; exclude := exclude a; output := v; help := help a;
     dryRun := dryRun a; maxDepth := maxDepth a;
     followSymlinks := followSymlinks a |}.
Definition set_help (a : Args) : Args :=
  {| input := input a; exclude := exclude a; output := output a; help := true;
     dryRun := dryRun a; maxDepth := maxDepth a;
     followSymlinks := followSymlinks a |}.
Definition set_dryRun (a : Args) : Args :=
  {| input := input a; exclude := exclude a; output := output a; help := help a;
     dryRun := true; maxDepth := maxDepth a;
     followSymlinks := followSymlinks a |}.
Definition set_maxDepth (a : Args) (v : jsnum) : Args :=
  {| input := input a; exclude := exclude a; output := output a; help := help a;
     dryRun := dryRun a; maxDepth := v;
     followSymlinks := followSymlinks a |}.
Definition set_followSymlinks (a : Args) : Args :=
  {| input := input a; exclude := exclude a; output := output a; help := help a;
     dryRun := dryRun a; maxDepth := maxDepth a;
     followSymlinks := true |}.

(** [a.split('=')[1]] *)
Definition after_equals (a : string) : option string :=
  nth_error (split_on "=" a) 1.

(** The [--key=value] forms: the six tests of the loop body, in order. *)
Definition parse_key_value (args : Args) (a : string) : Args :=
  let args := if startsWith a "--input=" then set_input args (after_equals a) else args in
  let args := if startsWith a "--exclude=" then set_exclude args (after_equals a) else args in
  let args := if startsWith a "--output=" then set_output args (after_equals a) else args in
  let args := if startsWith a "--dry-run=" then set_dryRun args else args in
  let args := if startsWith a "--max-depth=" then set_maxDepth args (Number_ (after_equals a)) else args in
  if startsWith a "--follow-symlinks=" then set_followSymlinks args else args.

(** The loop of [parseArgs] over what is left of [argv]; [argv[++i]] is the
    head of the rest, [undefined] when there is none. *)
Fixpoint parse_loop (args : Args) (rest : list string) : Args :=
  match rest with
  | [] => args
  | a :: rest' =>
      if String.eqb a "-h" || String.eqb a "--help" then set_help args
      else if String.eqb a "-i" || String.eqb a "--input" then
        match rest' with
        | v :: rest'' => parse_loop (set_input args (Some v)) rest''
        | [] => set_input args None
        end
      else if String.eqb a "-e" || String.eqb a "--exclude" then
        match rest' with
        | v :: rest'' => parse_loop (set_exclude args (Some v)) rest''
        | [] => set_exclude args None
        end
      else if String.eqb a "-o" || String.eqb a "--output" then
        match rest' with
        | v :: rest'' => parse_loop (set_output args (Some v)) rest''
        | [] => set_output args None
        end
      else if String.eqb a "-d" || String.eqb a "--dry-run" then
        parse_loop (set_dryRun args) rest'
      else if String.eqb a "-m" || String.eqb a "--max-depth" then
        match rest' with
        | v :: rest'' => parse_loop (set_maxDepth args (Number_ (Some v))) rest''
        | [] => set_maxDepth args (Number_ None)
        end
      else if String.eqb a "-l" || String.eqb a "--follow-symlinks" then
        parse_loop (set_followSymlinks args) rest'
      else parse_loop (parse_key_value args a) rest'
  end.

Definition parseArgs (argv : list string) : Args :=
  parse_loop
    {| input := None; exclude := None; output := None; help := false;
       dryRun := false; maxDepth := JInf; followSymlinks := false |}
    (skipn 2 argv).

(* ================================================================== *)
(** * [compileExcludeRegexes] and [matchesAnyRegex] *)
(* ================================================================== *)

(** The class that opens the pattern of the fallback,
    [[.*+?^${}()|[\\]]: the thirteen characters up to the first unescaped
    closing bracket, the last of them an escaped backslash. *)
Definition in_escape_class (c : ascii) : bool :=
  existsb (Ascii.eqb c)
    ["."; "*"; "+"; "?"; "^"; "$"; "{"; "}"; "("; ")"; "|"; "["; "\"]%char.

(** [s.replace(/[.*+?^${}()|[\\]\\\\]/g, "\\$&")].  The regular-expression
    literal reads: one character of the class above, then two backslashes
    (each written [\\]), then a closing bracket.  Every such four-character
    match, taken from left to right, is replaced by a backslash followed by
    the match. *)
Fixpoint escapeReplace (s : string) : string :=
  match s with
  | EmptyString => EmptyString
  | String c s' =>
      match s' with
      | String b1 (String b2 (String r rest)) =>
          if in_escape_class c && Ascii.eqb b1 "\" && Ascii.eqb b2 "\"
             && Ascii.eqb r "]"
          then String "\" (String c (String b1 (String b2 (String r
                 (escapeReplace rest)))))
          else String c (escapeReplace s')
      | _ => String c (escapeReplace s')
      end
  end.

(** The callback of the last [map]: [new RegExp(s)], and in the [catch]
    block [new RegExp] of the replaced text.  [None] is the exception that
    leaves the [catch] block when that second construction throws too. *)
Definition compile_one (rt : Runtime) (s : string) : option (RegExp rt) :=
  match RegExp_new rt s with
  | Some r => Some r
  | None => RegExp_new rt (escapeReplace s)
  end.

(** [Array.prototype.map] with a callback that may throw. *)
Fixpoint map_throwing {A B : Type} (f : A -> option B) (l : list A)
  : option (list B) :=
  match l with
  | [] => Some []
  | x :: l' =>
      match f x with
      | None => None
      | Some y =>
          match map_throwing f l' with
          | None => None
          | Some ys => Some (y :: ys)
          end
      end
  end.

(** [excludeStr.split(',').map(s => s.trim()).filter(Boolean)] *)
Definition patterns_of (excludeStr : string) : list string :=
  filter (fun s => negb (String.eqb s "")) (map trim (split_on "," excludeStr)).

(** [compileExcludeRegexes(excludeStr)]; [None] when it throws. *)
Definition compileExcludeRegexes (rt : Runtime) (excludeStr : option string)
  : option (list (RegExp rt)) :=
  match excludeStr with
  | None => Some []
  | Some str =>
      if String.eqb str "" then Some []
      else map_throwing (compile_one rt) (patterns_of str)
  end.

Definition matchesAnyRegex (rt : Runtime) (str : string)
  (regexes : list (RegExp rt)) : bool :=
  existsb (fun r => RegExp_test rt r str) regexes.

(* ================================================================== *)
(** * [getLangForFile] *)
(* ================================================================== *)

Definition EXT_TO_LANG : list (string * string) :=
  [ (".js", "javascript"); (".mjs", "javascript"); (".cjs", "javascript");
    (".ts", "typescript"); (".tsx", "tsx"); (".jsx", "jsx");
    (".py", "python"); (".rb", "ruby"); (".java", "java"); (".c", "c");
    (".cpp", "cpp"); (".cc", "cpp"); (".h", "c"); (".hpp", "cpp");
    (".go", "go"); (".rs", "rust"); (".php", "php"); (".html", "html");
    (".css", "css"); (".json", "json"); (".md", "markdown");
    (".sh", "bash"); (".bash", "bash"); (".zsh", "bash"); (".yml", "yaml");
    (".yaml", "yaml"); (".xml", "xml"); (".swift", "swift");
    (".kt", "kotlin"); (".kts", "kotlin"); (".r", "r"); (".pl", "perl");
    (".sql", "sql"); (".txt", ""); (".text", "");
    (".cs", "csharp"); (".vb", "vbnet"); (".fs", "fsharp");
    (".scala", "scala"); (".clj", "clojure"); (".cljs", "clojure");
    (".ex", "elixir"); (".exs", "elixir"); (".erl", "erlang");
    (".hrl", "erlang"); (".hs", "haskell"); (".lhs", "haskell");
    (".ml", "ocaml"); (".mli", "ocaml"); (".lua", "lua"); (".dart", "dart");
    (".m", "objective-c"); (".mm", "objective-c");
    (".vim", "vim"); (".vimrc", "vim"); (".fish", "fish");
    (".ps1", "powershell"); (".psm1", "powershell");
    (".dockerfile", "dockerfile"); (".makefile", "makefile");
    (".mk", "makefile"); (".cmake", "cmake");
    (".gradle", "gradle"); (".groovy", "groovy"); (".gvy", "groovy");
    (".properties", "properties"); (".ini", "ini");
    (".toml", "toml"); (".cfg", "ini"); (".conf", "apache");
    (".htaccess", "apache"); (".nginx", "nginx");
    (".proto", "protobuf"); (".graphql", "graphql"); (".gql", "graphql");
    (".scss", "scss"); (".sass", "sass");
    (".less", "less"); (".styl", "stylus"); (".vue", "vue");
    (".svelte", "svelte"); (".astro", "astro");
    (".jinja", "jinja2"); (".jinja2", "jinja2"); (".j2", "jinja2");
    (".hbs", "handlebars"); (".mustache", "mustache");
    (".pug", "pug"); (".jade", "pug"); (".ejs", "ejs"); (".erb", "erb");
    (".haml", "haml");
    (".tex", "latex"); (".bib", "bibtex"); (".diff", "diff");
    (".patch", "diff"); (".log", "log");
    (".asm", "assembly"); (".s", "assembly"); (".nasm", "nasm");
    (".masm", "masm");
    (".sol", "solidity"); (".move", "move"); (".cairo", "cairo");
    (".vyper", "vyper");
    (".lean", "lean"); (".agda", "agda"); (".coq", "coq"); (".v", "verilog");
    (".sv", "systemverilog");
    (".vhd", "vhdl"); (".vhdl", "vhdl"); (".tcl", "tcl"); (".awk", "awk");
    (".sed", "sed");
    (".xquery", "xquery"); (".xq", "xquery"); (".sparql", "sparql");
    (".rq", "sparql");
    (".dockerfile.*", "dockerfile"); (".env", "bash"); (".envrc", "bash");
    (".bashrc", "bash"); (".zshrc", "bash") ].

(** [EXT_TO_LANG[key]] when [EXT_TO_LANG.hasOwnProperty(key)]. *)
Fixpoint own_property (key : string) (o : list (string * string))
  : option string :=
  match o with
  | [] => None
  | (k, v) :: o' => if String.eqb k key then Some v else own_property key o'
  end.

Definition getLangForFile (filePath : string) : string :=
  let ext := toLowerCase (extname filePath) in
  match own_property ext EXT_TO_LANG with
  | Some lang => lang
  | None => ""
  end.

(* ================================================================== *)
(** * [hasBOM] *)
(* ================================================================== *)

Inductive BomKind : Type := utf8 | utf16be | utf32be | utf32le | utf16le.

(** The object [hasBOM] returns: [{ kind, bomLength }]. *)
Record Bom : Type := { bom_kind : BomKind; bomLength : nat }.

(** [buffer[i] === b]; an index past the end reads [undefined], which
    equals no byte. *)
Definition byte_is (buffer : list byte) (i : nat) (b : byte) : bool :=
  match nth_error buffer i with
  | Some c => Byte.eqb c b
  | None => false
  end.

(** [hasBOM(buffer)] for a [Buffer]; [None] is [null]. *)
Definition hasBOM (buffer : list byte) : option Bom :=
  let len := List.length buffer in
  if (len <? 2)%nat then None
  else if (3 <=? len)%nat && byte_is buffer 0 xef && byte_is buffer 1 xbb
          && byte_is buffer 2 xbf
  then Some {| bom_kind := utf8; bomLength := 3 |}
  else if byte_is buffer 0 xfe && byte_is buffer 1 xff
  then Some {| bom_kind := utf16be; bomLength := 2 |}
  else if (4 <=? len)%nat && byte_is buffer 0 x00 && byte_is buffer 1 x00
          && byte_is buffer 2 xfe && byte_is buffer 3 xff
  then Some {| bom_kind := utf32be; bomLength := 4 |}
  else if byte_is buffer 0 xff && byte_is buffer 1 xfe
  then
    if (4 <=? len)%nat && byte_is buffer 2 x00 && byte_is buffer 3 x00
    then Some {| bom_kind := utf32le; bomLength := 4 |}
    else Some {| bom_kind := utf16le; bomLength := 2 |}
  else None.

(* ================================================================== *)
(** * [isLikelyBinary] and [fenceFor] *)
(* ================================================================== *)

(** The loop of [isLikelyBinary]: is some byte of the buffer [0]? *)
Fixpoint isLikelyBinary (buffer : list byte) : bool :=
  match buffer with
  | [] => false
  | b :: buffer' => if Byte.eqb b x00 then true else isLikelyBinary buffer'
  end.

Definition backtick : ascii := "`"%char.

(** The matches of [/`+/g] in the rest of the content, [run] being the
    backticks of the match that is being read. *)
Fixpoint backtick_runs (run : string) (content : string) : list string :=
  match content with
  | EmptyString =>
      match run with EmptyString => [] | _ => [run] end
  | String c content' =>
      if Ascii.eqb c backtick then backtick_runs (String c run) content'
      else match run with
           | EmptyString => backtick_runs EmptyString content'
           | _ => run :: backtick_runs EmptyString content'
           end
  end.

(** [content.match(/`+/g)]: [None] is the [null] of a string without
    backtick. *)
Definition match_backticks (content : string) : option (list string) :=
  match backtick_runs EmptyString content with
  | [] => None
  | ms => Some ms
  end.

Definition fenceFor (content : string) : string :=
  match match_backticks content with
  | None => "```"
  | Some matches =>
      let maxRun :=
        fold_left (fun m s => Nat.max m (String.length s)) matches 0 in
      repeat_str "`" (maxRun + 1)
  end.

(* ================================================================== *)
(** * [collectFiles] *)
(* ================================================================== *)

(** [entries.slice().sort(compare)].  [Array.prototype.sort] is stable, so
    for a comparator that orders the names consistently its result is the
    one sorted arrangement that keeps equal elements in their original
    order; insertion from the right computes it. *)
Section Sort.
Variable rt : Runtime.
Variable A : Type.
Variable key : A -> string.

Fixpoint insert_by (x : A) (l : list A) : list A :=
  match l with
  | [] => [x]
  | y :: l' =>
      if (localeCompare_base rt (key x) (key y) <=? 0)%Z
      then x :: l
      else y :: insert_by x l'
  end.

Fixpoint sort_by (l : list A) : list A :=
  match l with
  | [] => []
  | x :: l' => insert_by x (sort_by l')
  end.
End Sort.

(** An element of [files]: [{ full, rel }]. *)
Record FileRef : Type := { full : path; rel : string }.

(** [for (const ent of sortedEntries) body], where the body returns the
    accumulator, or [None] when a recursive call ran out of fuel. *)
Fixpoint for_of {S E : Type} (body : E -> S -> option S) (l : list E) (s : S)
  : option S :=
  match l with
  | [] => Some s
  | e :: l' =>
      match body e s with
      | None => None
      | Some s' => for_of body l' s'
      end
  end.

Section Walk.
Variable rt : Runtime.
Variable fs : FileSystem.
Variable resolvedRoot : path.
Variable excludeRegexes : list (RegExp rt).
Variable maxDepth : jsnum.
Variable followSymlinks : bool.

(** The body of the [for] loop of [walk] for one entry; [walk] is the
    recursive call, [files] the array the closure appends to. *)
Definition visit (walk : path -> nat -> list FileRef -> option (list FileRef))
  (dir : path) (currentDepth : nat) (ent : Dirent) (files : list FileRef)
  : option (list FileRef) :=
  let full := path_join dir (name ent) in
  let rel := join "/" (split_on "/" (path_relative resolvedRoot full)) in
  if matchesAnyRegex rt rel excludeRegexes
     || matchesAnyRegex rt (path_str full) excludeRegexes
  then Some files
  else
    match kind ent with
    | KDir => walk full (S currentDepth) files
    | KFile => Some (files ++ [{| full := full; rel := rel |}])
    | KSymlink =>
        if followSymlinks then
          match fs_stat fs full with
          | None => Some files
          | Some SDir =>
              match fs_realpath fs full with
              | None => Some files
              | Some resolvedPath =>
                  if negb (startsWith (path_str resolvedPath)
                                      (path_str resolvedRoot))
                  then Some files
                  else walk full (S currentDepth) files
              end
          | Some SFile => Some (files ++ [{| full := full; rel := rel |}])
          | Some SOther => Some files
          end
        else Some files
    | KOther => Some files
    end.

(** [walk(dir, currentDepth)].  The recursion of the source is not bounded
    by anything in the source, so the embedding counts calls: [None] means
    that [fuel] nested calls were not enough.  Nothing else yields [None]:
    every failing operation of [walk] sits in a [try] block. *)
Fixpoint walk (fuel : nat) (dir : path) (currentDepth : nat)
  (files : list FileRef) : option (list FileRef) :=
  match fuel with
  | O => None
  | S fuel' =>
      if gt_num currentDepth maxDepth then Some files
      else
        match fs_readdir fs dir with
        | None => Some files
        | Some entries =>
            let sortedEntries := sort_by rt name entries in
            for_of (visit (walk fuel') dir currentDepth) sortedEntries files
        end
  end.
End Walk.

(** [collectFiles(root, excludeRegexes, maxDepth, followSymlinks)] run in
    working directory [cwd]. *)
Definition collectFiles (rt : Runtime) (fs : FileSystem) (cwd : path)
  (fuel : nat) (root : string) (excludeRegexes : list (RegExp rt))
  (maxDepth : jsnum) (followSymlinks : bool) : option (list FileRef) :=
  let resolvedRoot := path_resolve cwd root in
  walk rt fs resolvedRoot excludeRegexes maxDepth followSymlinks
       fuel resolvedRoot 0 [].

(* ================================================================== *)
(** * [buildContext] *)
(* ================================================================== *)

Definition separator : string :=
  "================================================".

Definition NL : string := String (ascii_of_nat 10) EmptyString.

(** What one iteration of the loop of [buildContext] appends to [out] for a
    buffer that was read and is not binary.  [buffer.toString('utf8')] keeps
    the bytes: see the remark on strings above. *)
Definition render_block (f : FileRef) (buffer : list byte) : string :=
  let content := string_of_list_byte buffer in
  let lang := getLangForFile (path_str (full f)) in
  let fence := fenceFor content in
  let fenceStart :=
    if String.eqb lang "" then (fence ++ NL)%string
    else (fence ++ lang ++ NL)%string in
  let fenceEnd := (NL ++ fence ++ NL ++ NL)%string in
  (NL ++ NL
   ++ separator ++ NL
   ++ "FILE: " ++ path_str (full f) ++ NL
   ++ separator ++ NL ++ NL
   ++ fenceStart ++ content ++ fenceEnd)%string.

Fixpoint buildContext_from (rt : Runtime) (fs : FileSystem)
  (files : list FileRef) (out : string) : string :=
  match files with
  | [] => out
  | f :: files' =>
      match fs_readFile fs (full f) with
      | None => buildContext_from rt fs files' out
      | Some buffer =>
          if isBinaryFileSync rt buffer (List.length buffer)
          then buildContext_from rt fs files' out
          else buildContext_from rt fs files' (out ++ render_block f buffer)%string
      end
  end.

Definition buildContext (rt : Runtime) (fs : FileSystem)
  (files : list FileRef) : string :=
  buildContext_from rt fs files "".

(* ================================================================== *)
(** * [main] *)
(* ================================================================== *)

(** What a run leaves behind: the exit code of the process and the calls of
    [writeFile] that succeeded.  Console output is not modelled. *)
Record Outcome : Type := {
  exitCode : Z;
  written : list (path * string)
}.

Definition exit_with (code : Z) : Outcome :=
  {| exitCode := code; written := [] |}.

(** The body of [main] after
    [const { input, exclude, output, help } = parseArgs(process.argv)],
    together with the [catch] of its caller.  [collectFiles] is called with
    two arguments, so its [maxDepth] and [followSymlinks] are the defaults
    [Infinity] and [false]. *)
Definition main_body (rt : Runtime) (fs : FileSystem) (cwd : path)
  (fuel : nat) (input exclude output : option string) (help : bool)
  : option Outcome :=
  if help || falsy input then
    Some (exit_with (if help then 0 else 1))
  else
    match input with
    | None => Some (exit_with 1)
    | Some inp =>
        let inputPath := path_resolve cwd inp in
        match fs_stat fs inputPath with
        | None => Some (exit_with 2)
        | Some SDir =>
            match compileExcludeRegexes rt exclude with
            | None => Some (exit_with 1)
            | Some excludeRegexes =>
                match collectFiles rt fs cwd fuel (path_str inputPath)
                        excludeRegexes JInf false with
                | None => None
                | Some [] => Some (exit_with 4)
                | Some files =>
                    let context := buildContext rt fs files in
                    let outPath :=
                      match output with
                      | Some o =>
                          if String.eqb o ""
                          then path_resolve cwd DEFAULT_OUTPUT
                          else path_resolve cwd o
                      | None => path_resolve cwd DEFAULT_OUTPUT
                      end in
                    if fs_writeFile fs outPath context
                    then Some {| exitCode := 0;
                                 written := [(outPath, context)] |}
                    else Some (exit_with 5)
                end
            end
        | Some _ => Some (exit_with 3)
        end
    end.

(** [main()] for the command line [argv] in working directory [cwd]. *)
Definition main (rt : Runtime) (fs : FileSystem) (cwd : path) (fuel : nat)
  (argv : list string) : option Outcome :=
  let args := parseArgs argv in
  main_body rt fs cwd fuel (input args) (exclude args) (output args)
            (help args).

(* ================================================================== *)
(** * A concrete host, to run the embedding *)
(* ================================================================== *)

(** ** Regular expressions

    An engine for a fragment of the ECMAScript pattern syntax: characters
    that are not syntax characters, [.], a backslash before a syntax
    character or a slash, groups, alternation and the quantifiers [*], [+],
    [?].  On this fragment it accepts and rejects as [new RegExp] does (an
    unclosed group, an unmatched closing parenthesis and a quantifier
    without operand are syntax errors); patterns that use anything else
    (classes, anchors, brackets and braces, other escapes) are outside the
    fragment and refused. *)
Inductive re : Type :=
| RFail
| REps
| RChr (c : ascii)
| RDot
| RAll
| RCat (a b : re)
| RAlt (a b : re)
| RStar (a : re).

Fixpoint nullable (r : re) : bool :=
  match r with
  | RFail | RChr _ | RDot | RAll => false
  | REps | RStar _ => true
  | RCat a b => nullable a && nullable b
  | RAlt a b => nullable a || nullable b
  end.

Definition line_terminator (c : ascii) : bool :=
  let n := nat_of_ascii c in ((n =? 10) || (n =? 13))%nat.

(** Brzozowski derivative of [r] by the character [c]. *)
Fixpoint deriv (c : ascii) (r : re) : re :=
  match r with
  | RFail | REps => RFail
  | RChr d => if Ascii.eqb c d then REps else RFail
  | RDot => if line_terminator c then RFail else REps
  | RAll => REps
  | RCat a b =>
      if nullable a then RAlt (RCat (deriv c a) b) (deriv c b)
      else RCat (deriv c a) b
  | RAlt a b => RAlt (deriv c a) (deriv c b)
  | RStar a => RCat (deriv c a) (RStar a)
  end.

Fixpoint re_matches (r : re) (s : string) : bool :=
  match s with
  | EmptyString => nullable r
  | String c s' => re_matches (deriv c r) s'
  end.

(** [r.test(s)]: a match anywhere in [s]. *)
Definition re_test (r : re) (s : string) : bool :=
  re_matches (RCat (RStar RAll) (RCat r (RStar RAll))) s.

Definition syntax_char (c : ascii) : bool :=
  existsb (Ascii.eqb c)
    ["^"; "$"; "\"; "."; "*"; "+"; "?"; "("; ")"; "["; "]"; "{"; "}"; "|"]%char.

(** An optional quantifier after an atom (a [?] after it only makes the
    quantifier lazy, which [test] cannot observe). *)
Definition quantified (a : re) (s : string) : re * string :=
  let lazy (s : string) :=
    match s with String "?" s' => s' | _ => s end in
  match s with
  | String "*" s' => (RStar a, lazy s')
  | String "+" s' => (RCat a (RStar a), lazy s')
  | String "?" s' => (RAlt REps a, lazy s')
  | _ => (a, s)
  end.

Fixpoint parse_disjunction (n : nat) (s : string) {struct n}
  : option (re * string) :=
  match n with
  | O => None
  | S n' =>
      match parse_alternative n' s with
      | None => None
      | Some (r, String "|" s') =>
          match parse_disjunction n' s' with
          | Some (r2, s'') => Some (RAlt r r2, s'')
          | None => None
          end
      | Some (r, s') => Some (r, s')
      end
  end
with parse_alternative (n : nat) (s : string) {struct n}
  : option (re * string) :=
  match n with
  | O => None
  | S n' =>
      match s with
      | EmptyString => Some (REps, s)
      | String "|" _ => Some (REps, s)
      | String ")" _ => Some (REps, s)
      | _ =>
          match parse_atom n' s with
          | None => None
          | Some (a, s1) =>
              let '(q, s2) := quantified a s1 in
              match parse_alternative n' s2 with
              | Some (r, s3) => Some (RCat q r, s3)
              | None => None
              end
          end
      end
  end
with parse_atom (n : nat) (s : string) {struct n} : option (re * string) :=
  match n with
  | O => None
  | S n' =>
      match s with
      | EmptyString => None
      | String "(" s' =>
          let body :=
            match s' with String "?" (String ":" s'') => s'' | _ => s' end in
          match parse_disjunction n' body with
          | Some (r, String ")" rest) => Some (r, rest)
          | _ => None
          end
      | String "." s' => Some (RDot, s')
      | String "\" (String c s') =>
          if syntax_char c || Ascii.eqb c "/" then Some (RChr c, s') else None
      | String c s' =>
          if syntax_char c then None else Some (RChr c, s')
      end
  end.

Definition re_compile (s : string) : option re :=
  match parse_disjunction (3 * String.length s + 3) s with
  | Some (r, EmptyString) => Some r
  | _ => None
  end.

(** ** Collation

    Comparison of the names after ASCII case folding.  It agrees with the
    collation at base strength on the sign for names made of ASCII letters
    and digits, and like it finds names equal that differ only by case. *)
Definition ascii_compare_base (a b : string) : Z :=
  match String.compare (toLowerCase a) (toLowerCase b) with
  | Lt => (-1)%Z
  | Eq => 0%Z
  | Gt => 1%Z
  end.

(** ** Binary detection

    A stand-in for [isBinaryFileSync(buffer, size)] of [isbinaryfile] that
    follows the published check in its main lines: an empty buffer is text;
    a buffer that starts with a byte-order mark (UTF-8, UTF-32, GB 18030,
    UTF-16) is text; a [%PDF-] signature is binary; otherwise the first 512
    bytes are sampled, and a NUL byte, or more than one byte in ten outside
    the printable range, makes the buffer binary.  The look-ahead that lets
    multi-byte UTF-8 sequences pass is left out. *)
Definition MAX_BYTES : nat := 512.

Fixpoint starts_with_bytes (pre buf : list byte) : bool :=
  match pre, buf with
  | [], _ => true
  | p :: pre', b :: buf' => Byte.eqb p b && starts_with_bytes pre' buf'
  | _ :: _, [] => false
  end.

Definition suspicious_byte (b : byte) : bool :=
  let n := Byte.to_nat b in
  (((n <? 7) || (14 <? n)) && ((n <? 32) || (127 <? n)))%nat.

Definition isBinaryCheck (fileBuffer : list byte) (bytesRead : nat) : bool :=
  if (bytesRead =? 0)%nat then false
  else
    let totalBytes := Nat.min bytesRead MAX_BYTES in
    if starts_with_bytes [xef; xbb; xbf] fileBuffer then false
    else if starts_with_bytes [x00; x00; xfe; xff] fileBuffer then false
    else if starts_with_bytes [xff; xfe; x00; x00] fileBuffer then false
    else if starts_with_bytes [x84; x31; x95; x33] fileBuffer then false
    else if starts_with_bytes [x25; x50; x44; x46; x2d] fileBuffer then true
    else if starts_with_bytes [xfe; xff] fileBuffer then false
    else if starts_with_bytes [xff; xfe] fileBuffer then false
    else
      let sample := firstn totalBytes fileBuffer in
      existsb (fun b => Byte.eqb b x00) sample
      || (10 * totalBytes <? 100 * List.length (filter suspicious_byte sample))%nat.

Definition node_host : Runtime :=
  {| RegExp := re;
     RegExp_new := re_compile;
     RegExp_test := re_test;
     localeCompare_base := ascii_compare_base;
     isBinaryFileSync := isBinaryCheck |}.

(** ** File systems

    A file system is a tree of directories, files and symbolic links with
    absolute targets.  [resolve] follows a path from the root of the tree,
    links included; every link followed uses one of [hops], and running out
    of them is the [ELOOP] error of the kernel. *)
#[warnings="-register-all"]
Inductive Node : Type :=
| NFile (content : list byte)
| NDir (entries : list (string * Node))
| NLink (target : path).

Fixpoint lookup_child (nm : string) (es : list (string * Node))
  : option Node :=
  match es with
  | [] => None
  | (k, n) :: es' => if String.eqb k nm then Some n else lookup_child nm es'
  end.

(** Going down from the node [cur], whose real path is [real], along
    [segs]; [follow] resolves the path a link stands for. *)
Fixpoint descend (follow : path -> option (path * Node)) (cur : Node)
  (real segs : path) {struct segs} : option (path * Node) :=
  match cur with
  | NLink target => follow (target ++ segs)
  | _ =>
      match segs with
      | [] => Some (real, cur)
      | s :: rest =>
          match cur with
          | NDir es =>
              match lookup_child s es with
              | Some c => descend follow c (real ++ [s]) rest
              | None => None
              end
          | _ => None
          end
      end
  end.

(** The real path and the node that [p] leads to in the tree [w]. *)
Fixpoint resolve (hops : nat) (w : Node) (p : path) {struct hops}
  : option (path * Node) :=
  descend
    (match hops with
     | O => fun _ => None
     | S h => fun q => resolve h w q
     end) w [] p.

Definition dirent_of (e : string * Node) : Dirent :=
  {| name := fst e;
     kind := match snd e with
             | NFile _ => KFile
             | NDir _ => KDir
             | NLink _ => KSymlink
             end |}.

(** The operations of [fs.promises] on the tree [w]; every write succeeds. *)
Definition fs_of_world (hops : nat) (w : Node) : FileSystem :=
  {| fs_readdir := fun p =>
       match resolve hops w p with
       | Some (_, NDir es) => Some (map dirent_of es)
       | _ => None
       end;
     fs_stat := fun p =>
       match resolve hops w p with
       | Some (_, NDir _) => Some SDir
       | Some (_, NFile _) => Some SFile
       | _ => None
       end;
     fs_realpath := fun p =>
       match resolve hops w p with
       | Some (real, _) => Some real
       | None => None
       end;
     fs_readFile := fun p =>
       match resolve hops w p with
       | Some (_, NFile content) => Some content
       | _ => None
       end;
     fs_writeFile := fun _ _ => true |}.

(** The limit of Linux on the links followed in one path resolution. *)
Definition MAXSYMLINKS : nat := 40.

Definition text (s : string) : Node := NFile (list_byte_of_string s).

(** ** Sample trees *)

Definition cwd0 : path := ["home"; "u"].

(** The tree of the scenarios of the specification: [a.py], [b.bin] and
    [sub/c.go] under [/r], listed by the file system in no particular
    order. *)
Definition scenario_world : Node :=
  NDir [("r", NDir [("sub", NDir [("c.go", text "package main")]);
                    ("b.bin", NFile [x00; x01; x02]);
                    ("a.py", text "print(1)")])].

(** One root file and one subdirectory that contains a file. *)
Definition depth_world : Node :=
  NDir [("r", NDir [("sub", NDir [("c.go", text "package main")]);
                    ("a.py", text "print(1)")])].

Definition empty_world : Node := NDir [("r", NDir [])].

(** A tree whose every file is binary. *)
Definition binary_world : Node :=
  NDir [("r", NDir [("b.bin", NFile [x00; x01; x02]);
                    ("sub", NDir [("c.bin", NFile [x7f; x45; x00; x46])])])].

(** Root [/data] with a link to its sibling [/data2]. *)
Definition prefix_world : Node :=
  NDir [("data", NDir [("a.txt", text "inside");
                       ("link", NLink ["data2"])]);
        ("data2", NDir [("secret.txt", text "outside")])].

(** Root [/r] with a link [loop] that leads back to [/r]. *)
Definition loop_dir : Node :=
  NDir [("a.txt", text "hello"); ("loop", NLink ["r"])].

Definition loop_world : Node := NDir [("r", loop_dir)].

(** The same tree as the kernel would show it without a bound on the links
    followed: what lies under [/r/loop/.../loop] is what lies under [/r]. *)
Fixpoint drop_loops (p : path) : path :=
  match p with
  | s :: p' => if String.eqb s "loop" then drop_loops p' else p
  | [] => []
  end.

Definition unfold_loops (p : path) : path :=
  match p with
  | s :: p' => if String.eqb s "r" then s :: drop_loops p' else p
  | [] => []
  end.

Definition loop_fs_unbounded : FileSystem :=
  let fs := fs_of_world 0 loop_world in
  {| fs_readdir := fun p => fs_readdir fs (unfold_loops p);
     fs_stat := fun p => fs_stat fs (unfold_loops p);
     fs_realpath := fun p => fs_realpath fs (unfold_loops p);
     fs_readFile := fun p => fs_readFile fs (unfold_loops p);
     fs_writeFile := fun _ _ => true |}.

(** The [n]-th copy of [/r/a.txt] that the walk of [loop_world] meets. *)
Definition loop_ref (n : nat) : FileRef :=
  {| full := "r" :: List.repeat "loop" n ++ ["a.txt"];
     rel := join "/" (List.repeat "loop" n ++ ["a.txt"]) |}.

(** A text file that starts with a UTF-8 byte-order mark and holds a NUL
    byte. *)
Definition bom_nul_buffer : list byte := [xef; xbb; xbf; x61; x00; x62].

Definition bom_world : Node :=
  NDir [("r", NDir [("x.txt", NFile bom_nul_buffer)])].

(** A directory with two names that differ only by case, as two file
    systems list it. *)
Definition case_tree : Node := NDir [("a", text "1"); ("A", text "2")].
Definition case_world_1 : Node := NDir [("r", case_tree)].
Definition case_world_2 : Node :=
  NDir [("r", NDir [("A", text "2"); ("a", text "1")])].

(** The sample trees as Linux shows them. *)
Definition scenario_fs : FileSystem := fs_of_world MAXSYMLINKS scenario_world.
Definition depth_fs : FileSystem := fs_of_world MAXSYMLINKS depth_world.
Definition empty_fs : FileSystem := fs_of_world MAXSYMLINKS empty_world.
Definition binary_fs : FileSystem := fs_of_world MAXSYMLINKS binary_world.
Definition prefix_fs : FileSystem := fs_of_world MAXSYMLINKS prefix_world.
Definition bom_fs : FileSystem := fs_of_world MAXSYMLINKS bom_world.
Definition case_fs_1 : FileSystem := fs_of_world MAXSYMLINKS case_world_1.
Definition case_fs_2 : FileSystem := fs_of_world MAXSYMLINKS case_world_2.

(* ================================================================== *)
(** * Vocabulary of the properties *)
(* ================================================================== *)

Fixpoint string_forallb (f : ascii -> bool) (s : string) : bool :=
  match s with
  | EmptyString => true
  | String c s' => f c && string_forallb f s'
  end.

(** The length of the longest run of backticks of a content, following the
    words of the specification: [cur] is the run being read, [best] the
    longest one seen. *)
Fixpoint longest_run_from (cur best : nat) (content : string) : nat :=
  match content with
  | EmptyString => Nat.max best cur
  | String c content' =>
      if Ascii.eqb c backtick then longest_run_from (S cur) best content'
      else longest_run_from 0 (Nat.max best cur) content'
  end.

Definition longest_backtick_run (content : string) : nat :=
  longest_run_from 0 0 content.

(** A name that [readdir] can return: not empty, neither [.] nor [..], and
    without separator. *)
Definition valid_name (s : string) : bool :=
  negb (String.eqb s "") && negb (String.eqb s ".") && negb (String.eqb s "..")
  && string_forallb (fun c => negb (Ascii.eqb c "/")) s.

Definition names_ok (fs : FileSystem) : Prop :=
  forall p es, fs_readdir fs p = Some es ->
               Forall (fun e => valid_name (name e) = true) es.

Fixpoint world_names_ok (n : Node) : bool :=
  match n with
  | NDir es =>
      (fix all (es : list (string * Node)) : bool :=
         match es with
         | [] => true
         | (nm, c) :: es' => valid_name nm && world_names_ok c && all es'
         end) es
  | _ => true
  end.

(** The reference [f] names a place below [root]: [full] is [root]
    followed by valid names, and [rel] is those names joined by [/]. *)
Definition below (root : path) (f : FileRef) : Prop :=
  exists segs, segs <> []
               /\ Forall (fun s => valid_name s = true) segs
               /\ full f = root ++ segs
               /\ rel f = join "/" segs.

(** The directory [dir] lies at or below [root]. *)
Definition inside (root dir : path) : Prop :=
  exists ds, Forall (fun s => valid_name s = true) ds /\ dir = root ++ ds.

(** A call of [walk] on a directory inside the root keeps the references
    of the accumulator below the root. *)
Definition keeps_below (root : path)
  (w : path -> nat -> list FileRef -> option (list FileRef)) : Prop :=
  forall dir depth files files',
    inside root dir ->
    Forall (below root) files ->
    w dir depth files = Some files' ->
    Forall (below root) files'.

(** The segments of a relative path as the program stores it. *)
Definition rel_segments (f : FileRef) : list string := split_on "/" (rel f).

(** The comparator orders the names consistently: swapping the arguments
    flips the sign, and "not after" is transitive. *)
Definition consistent_compare (rt : Runtime) : Prop :=
  (forall a b, Z.sgn (localeCompare_base rt b a)
               = (- Z.sgn (localeCompare_base rt a b))%Z)
  /\ (forall a b c, (localeCompare_base rt a b <= 0)%Z ->
                    (localeCompare_base rt b c <= 0)%Z ->
                    (localeCompare_base rt a c <= 0)%Z).

(** No two of the names compare equal. *)
Fixpoint pairwise_distinct (rt : Runtime) (l : list string) : bool :=
  match l with
  | [] => true
  | x :: l' =>
      forallb (fun y => negb (localeCompare_base rt x y =? 0)%Z) l'
      && pairwise_distinct rt l'
  end.

(** A tree of directories and files only, with valid names; when
    [distinct] is set, no two names of a directory compare equal. *)
Fixpoint plain_tree (rt : Runtime) (distinct : bool) (n : Node) : bool :=
  match n with
  | NFile _ => true
  | NLink _ => false
  | NDir es =>
      forallb valid_name (map fst es)
      && (negb distinct || pairwise_distinct rt (map fst es))
      && (fix all (es : list (string * Node)) : bool :=
            match es with
            | [] => true
            | (_, c) :: es' => plain_tree rt distinct c && all es'
            end) es
  end.

Fixpoint height (n : Node) : nat :=
  match n with
  | NDir es =>
      S ((fix tallest (es : list (string * Node)) : nat :=
            match es with
            | [] => 0
            | (_, c) :: es' => Nat.max (height c) (tallest es')
            end) es)
  | _ => 0
  end.

(** The file system shows the tree [n] at [dir]: reading a directory of the
    tree returns its entries, in whatever order. *)
Fixpoint presents (fs : FileSystem) (dir : path) (n : Node) : Prop :=
  match n with
  | NDir es =>
      (exists listing, fs_readdir fs dir = Some listing
                       /\ Permutation listing (map dirent_of es))
      /\ (fix each (es : list (string * Node)) : Prop :=
            match es with
            | [] => True
            | (nm, c) :: es' => presents fs (dir ++ [nm]) c /\ each es'
            end) es
  | _ => True
  end.

(** The files of the tree [n], which sits at [root ++ rels], enumerated
    depth-first, the entries of every directory in the order of the
    case-insensitive comparison of their names: the list the specification
    describes. *)
Fixpoint enumerate (rt : Runtime) (root rels : path) (n : Node)
  : list FileRef :=
  match n with
  | NFile _ => [{| full := root ++ rels; rel := join "/" rels |}]
  | NLink _ => []
  | NDir es =>
      concat (map snd (sort_by rt fst
        ((fix each (es : list (string * Node)) :=
            match es with
            | [] => []
            | (nm, c) :: es' =>
                (nm, enumerate rt root (rels ++ [nm]) c) :: each es'
            end) es)))
  end.

(** The four fields that [main] destructures. *)
Definition read_by_main (a : Args) : option string * option string
                                     * option string * bool :=
  (input a, exclude a, output a, help a).

(** The blocks of the files that can be read and that the detector lets
    through. *)
Definition eligible (rt : Runtime) (fs : FileSystem) (f : FileRef) : bool :=
  match fs_readFile fs (full f) with
  | Some buffer => negb (isBinaryFileSync rt buffer (List.length buffer))
  | None => false
  end.

(** The byte-order marks, as the Unicode standard lists them. *)
Definition bom_bytes (k : BomKind) : list byte :=
  match k with
  | utf8 => [xef; xbb; xbf]
  | utf16be => [xfe; xff]
  | utf32be => [x00; x00; xfe; xff]
  | utf32le => [xff; xfe; x00; x00]
  | utf16le => [xff; xfe]
  end.

(** [s] occurs in [t]. *)
Definition occurs_in (s t : string) : Prop :=
  exists a b, t = (a ++ s ++ b)%string.

(** The block of a file in the document: empty when the file cannot be
    read. *)
Definition block_of (fs : FileSystem) (f : FileRef) : string :=
  match fs_readFile fs (full f) with
  | Some buffer => render_block f buffer
  | None => ""
  end.

(** Why a reference is in the list that [collectFiles] returns: the chain
    of directory entries that leads to it. *)
Section Justified.
Variable rt : Runtime.
Variable fs : FileSystem.
Variable root : path.
Variable excludeRegexes : list (RegExp rt).
Variable maxDepth : jsnum.
Variable followSymlinks : bool.

(** Neither the relative nor the absolute path of [root ++ segs] matches an
    exclude pattern. *)
Definition unexcluded (segs : list string) : Prop :=
  matchesAnyRegex rt (join "/" segs) excludeRegexes = false
  /\ matchesAnyRegex rt (path_str (root ++ segs)) excludeRegexes = false.

(** The directory [root ++ ds] is within the depth bound and its listing
    holds [ent]. *)
Definition listed (ds : list string) (ent : Dirent) : Prop :=
  gt_num (List.length ds) maxDepth = false
  /\ exists es, fs_readdir fs (root ++ ds) = Some es /\ In ent es.

(** The entry at path [p] is walked as a directory. *)
Definition entered (ent : Dirent) (p : path) : Prop :=
  kind ent = KDir
  \/ (kind ent = KSymlink /\ followSymlinks = true
      /\ fs_stat fs p = Some SDir
      /\ exists real, fs_realpath fs p = Some real
                      /\ startsWith (path_str real) (path_str root) = true).

(** The entry at path [p] is pushed as a file. *)
Definition taken (ent : Dirent) (p : path) : Prop :=
  kind ent = KFile
  \/ (kind ent = KSymlink /\ followSymlinks = true
      /\ fs_stat fs p = Some SFile).

(** The directories [walk] is called on, by their segments below the
    root. *)
Inductive visited : list string -> Prop :=
| visited_root : visited []
| visited_entry (ds : list string) (ent : Dirent) :
    visited ds ->
    listed ds ent ->
    valid_name (name ent) = true ->
    unexcluded (ds ++ [name ent]) ->
    entered ent (root ++ ds ++ [name ent]) ->
    visited (ds ++ [name ent]).

Definition justified (f : FileRef) : Prop :=
  exists ds ent,
    visited ds
    /\ listed ds ent
    /\ valid_name (name ent) = true
    /\ unexcluded (ds ++ [name ent])
    /\ taken ent (root ++ ds ++ [name ent])
    /\ f = {| full := root ++ ds ++ [name ent];
              rel := join "/" (ds ++ [name ent]) |}.
End Justified.

(** Every listing of the file system holds each name once. *)
Definition names_unique (fs : FileSystem) : Prop :=
  forall p es, fs_readdir fs p = Some es -> NoDup (map name es).

(** The text starts with a character that is not white space, or is
    empty. *)
Definition starts_clean (s : string) : Prop :=
  match s with
  | EmptyString => True
  | String c _ => is_space c = false
  end.

(** The path [main] writes to: [--output] resolved against the working
    directory, [context.md] in the working directory without it. *)
Definition output_path (cwd : path) (output : option string) : path :=
  if falsy output then path_resolve cwd DEFAULT_OUTPUT
  else match output with
       | Some o => path_resolve cwd o
       | None => path_resolve cwd DEFAULT_OUTPUT
       end.

(** The path of [f] goes through the entry [nm] of [dir]. *)
Definition through (dir : path) (nm : string) (f : FileRef) : Prop :=
  exists tail, full f = dir ++ nm :: tail.

Fixpoint distinct_names (l : list string) : bool :=
  match l with
  | [] => true
  | x :: l' => negb (existsb (String.eqb x) l') && distinct_names l'
  end.

(** Every directory of the tree holds each name once. *)
Fixpoint world_names_unique (n : Node) : bool :=
  match n with
  | NDir es =>
      distinct_names (map fst es)
      && (fix all (es : list (string * Node)) : bool :=
            match es with
            | [] => true
            | (_, c) :: es' => world_names_unique c && all es'
            end) es
  | _ => true
  end.

Unset Implicit Arguments.

(* ================================================================== *)
(** * Strings and paths: basic facts *)
(* ================================================================== *)

Lemma split_on_not_nil (c : ascii) (s : string) : split_on c s <> [].
Proof.
  destruct s as [|a s]; simpl; [discriminate|].
  destruct (Ascii.eqb a c); [discriminate|].
  destruct (split_on c s); discriminate.
Qed.

Lemma split_on_no_sep (c : ascii) (s : string) :
  string_forallb (fun a => negb (Ascii.eqb a c)) s = true ->
  split_on c s = [s].
Proof.
  induction s as [|a s IH]; simpl; intros H; [reflexivity|].
  apply andb_true_iff in H as [Ha Hs].
  apply negb_true_iff in Ha. rewrite Ha, (IH Hs). reflexivity.
Qed.

Lemma split_on_app (c : ascii) (a b : string) :
  split_on c (a ++ String c b)%string = split_on c a ++ split_on c b.
Proof.
  induction a as [|x a IH]; simpl.
  - rewrite Ascii.eqb_refl. reflexivity.
  - destruct (Ascii.eqb x c).
    + rewrite IH. reflexivity.
    + rewrite IH. pose proof (split_on_not_nil c a) as Hn.
      destruct (split_on c a); [congruence|reflexivity].
Qed.

Lemma append_assoc (a b c : string) :
  ((a ++ b) ++ c)%string = (a ++ (b ++ c))%string.
Proof. induction a; simpl; congruence. Qed.

Lemma append_nil_r (a : string) : (a ++ "")%string = a.
Proof. induction a; simpl; congruence. Qed.

Lemma valid_name_no_sep (s : string) :
  valid_name s = true ->
  string_forallb (fun c => negb (Ascii.eqb c "/")) s = true.
Proof.
  unfold valid_name. intros H.
  repeat (apply andb_true_iff in H as [H ?]). assumption.
Qed.

Lemma valid_name_push (base : path) (s : string) :
  valid_name s = true -> push_segment base s = base ++ [s].
Proof.
  unfold valid_name, push_segment. intros H.
  repeat (apply andb_true_iff in H as [H ?]).
  apply negb_true_iff in H.
  repeat match goal with
         | [ K : negb _ = true |- _ ] => apply negb_true_iff in K
         end.
  rewrite H. simpl.
  repeat match goal with
         | [ K : String.eqb _ _ = false |- _ ] => rewrite K
         end.
  reflexivity.
Qed.

Lemma path_join_valid (dir : path) (nm : string) :
  valid_name nm = true -> path_join dir nm = dir ++ [nm].
Proof.
  intros H. unfold path_join, normalize_onto.
  rewrite (split_on_no_sep _ _ (valid_name_no_sep _ H)). simpl.
  apply valid_name_push, H.
Qed.

Lemma strip_common_app (root segs : path) :
  strip_common root (root ++ segs) = ([], segs).
Proof.
  induction root as [|a root IH]; simpl.
  - destruct segs; reflexivity.
  - rewrite String.eqb_refl. apply IH.
Qed.

Lemma path_relative_below (root segs : path) :
  path_relative root (root ++ segs) = join "/" segs.
Proof. unfold path_relative. rewrite strip_common_app. reflexivity. Qed.

Lemma split_join (segs : list string) :
  segs <> [] ->
  Forall (fun s => valid_name s = true) segs ->
  split_on "/" (join "/" segs) = segs.
Proof.
  induction segs as [|x segs IH]; [congruence|]. intros _ Hall.
  inversion Hall as [|? ? Hx Hrest]; subst.
  destruct segs as [|y segs].
  - simpl. apply split_on_no_sep, valid_name_no_sep, Hx.
  - change (join "/" (x :: y :: segs))
      with (x ++ String "/" (join "/" (y :: segs)))%string.
    rewrite split_on_app, IH by (congruence || assumption).
    rewrite (split_on_no_sep _ _ (valid_name_no_sep _ Hx)). reflexivity.
Qed.

Lemma valid_name_not_dotdot (segs : list string) :
  Forall (fun s => valid_name s = true) segs -> ~ In ".." segs.
Proof.
  intros Hall Hin. rewrite Forall_forall in Hall.
  specialize (Hall _ Hin). vm_compute in Hall. discriminate.
Qed.

(* ================================================================== *)
(** * [fenceFor] *)
(* ================================================================== *)

Lemma length_repeat_str (n : nat) : String.length (repeat_str "`" n) = n.
Proof. induction n; simpl; congruence. Qed.

Lemma fold_max_runs (content run : string) (best : nat) :
  fold_left (fun m s => Nat.max m (String.length s))
            (backtick_runs run content) best
  = longest_run_from (String.length run) best content.
Proof.
  revert run best.
  induction content as [|c content IH]; intros run best; simpl.
  - destruct run; simpl; [lia|reflexivity].
  - destruct (Ascii.eqb c backtick).
    + rewrite IH. reflexivity.
    + destruct run; simpl; rewrite IH; simpl; f_equal; lia.
Qed.

Lemma longest_run_from_ge (content : string) (cur best : nat) :
  best <= longest_run_from cur best content
  /\ cur <= longest_run_from cur best content.
Proof.
  revert cur best.
  induction content as [|c content IH]; intros cur best; simpl.
  - lia.
  - destruct (Ascii.eqb c backtick).
    + destruct (IH (S cur) best). lia.
    + destruct (IH 0 (Nat.max best cur)). lia.
Qed.

Lemma backtick_runs_nil (content run : string) :
  backtick_runs run content = [] ->
  run = EmptyString /\ longest_run_from 0 0 content = 0.
Proof.
  revert run.
  induction content as [|c content IH]; intros run; simpl.
  - destruct run; [auto|discriminate].
  - destruct (Ascii.eqb c backtick).
    + intros H. apply IH in H as [H _]. discriminate.
    + destruct run; [|discriminate]. intros H. apply IH in H as [_ H]. auto.
Qed.

Lemma backtick_runs_cons (content run m : string) (ms : list string) :
  backtick_runs run content = m :: ms ->
  0 < longest_run_from (String.length run) 0 content.
Proof.
  revert run m ms.
  induction content as [|c content IH]; intros run m ms; simpl.
  - destruct run; [discriminate|]. simpl. lia.
  - destruct (Ascii.eqb c backtick).
    + intros H. apply IH in H. exact H.
    + destruct run as [|a run].
      * intros H. apply IH in H. exact H.
      * intros _. simpl.
        pose proof (longest_run_from_ge content 0 (S (String.length run))).
        lia.
Qed.

(** What [fenceFor] computes, for every content: three backticks when the
    content has none, and otherwise one more than its longest run, which is
    two when that run is a single backtick. *)
Lemma fenceFor_length (content : string) :
  String.length (fenceFor content)
  = if (longest_backtick_run content =? 0)%nat then 3
    else longest_backtick_run content + 1.
Proof.
  unfold fenceFor, match_backticks, longest_backtick_run.
  destruct (backtick_runs EmptyString content) as [|m ms] eqn:E.
  - apply backtick_runs_nil in E as [_ E]. rewrite E. reflexivity.
  - rewrite <- E, length_repeat_str, fold_max_runs. simpl.
    apply backtick_runs_cons in E. simpl in E.
    destruct (longest_run_from 0 0 content =? 0)%nat eqn:Z; [|reflexivity].
    apply Nat.eqb_eq in Z. lia.
Qed.

Lemma fenceFor_backticks (content : string) :
  fenceFor content = repeat_str "`" (String.length (fenceFor content)).
Proof.
  unfold fenceFor. destruct (match_backticks content).
  - rewrite length_repeat_str. reflexivity.
  - reflexivity.
Qed.

(** C2 (the code departs from the claim).  The claim asks for a fence of at
    least three backticks, also for a content with a single backtick.
    [fenceFor] returns two backticks there: it has no lower bound once the
    content holds a backtick. *)
Theorem fenceFor_single_backtick_gives_two :
  longest_backtick_run "a`b" = 1
  /\ fenceFor "a`b" = "``"
  /\ String.length (fenceFor "a`b") < 3.
Proof. repeat split. simpl. lia. Qed.

(* ================================================================== *)
(** * [getLangForFile] *)
(* ================================================================== *)

Lemma last_dot_none (s : string) :
  string_forallb (fun c => negb (Ascii.eqb c ".") && negb (Ascii.eqb c "/")) s
  = true ->
  last_dot s = None.
Proof.
  induction s as [|c s IH]; simpl; [reflexivity|]. intros H.
  apply andb_true_iff in H as [Hc Hs]. apply andb_true_iff in Hc as [Hd _].
  apply negb_true_iff in Hd. rewrite (IH Hs), Hd. reflexivity.
Qed.

Lemma no_dot_no_sep (s : string) :
  string_forallb (fun c => negb (Ascii.eqb c ".") && negb (Ascii.eqb c "/")) s
  = true ->
  string_forallb (fun c => negb (Ascii.eqb c "/")) s = true.
Proof.
  induction s as [|c s IH]; simpl; [reflexivity|]. intros H.
  apply andb_true_iff in H as [Hc Hs]. apply andb_true_iff in Hc as [_ Hd].
  rewrite Hd, (IH Hs). reflexivity.
Qed.

Lemma last_filter_snoc (l : list string) (x : string) :
  x <> "" ->
  last (filter (fun s => negb (String.eqb s "")) (l ++ [x])) "" = x.
Proof.
  intros Hx. rewrite filter_app. simpl.
  destruct (String.eqb x "") eqn:E; [apply String.eqb_eq in E; congruence|].
  simpl. apply last_last.
Qed.

Lemma basename_dotfile (dir rest : string) :
  dir = "" \/ (exists d, dir = (d ++ "/")%string) ->
  string_forallb (fun c => negb (Ascii.eqb c ".") && negb (Ascii.eqb c "/")) rest
  = true ->
  basename (dir ++ String "." rest) = String "." rest.
Proof.
  intros Hdir Hrest. unfold basename.
  assert (Hsplit : split_on "/" (String "." rest) = [String "." rest]).
  { apply split_on_no_sep. simpl. apply no_dot_no_sep, Hrest. }
  destruct Hdir as [-> | [d ->]].
  - simpl append. rewrite Hsplit.
    apply (last_filter_snoc []). discriminate.
  - rewrite append_assoc. simpl append. rewrite split_on_app, Hsplit.
    apply last_filter_snoc. discriminate.
Qed.

(** C10.  For a path whose last portion is a dot followed by characters
    that are neither dots nor separators, [path.extname] is empty, so the
    lookup finds no language and the fence is left untagged; this although
    [EXT_TO_LANG] has entries under [.bashrc], [.env], [.envrc], [.zshrc]
    and [.htaccess]. *)
Theorem getLangForFile_dotfile_untagged (dir rest : string) :
  dir = "" \/ (exists d, dir = (d ++ "/")%string) ->
  string_forallb (fun c => negb (Ascii.eqb c ".") && negb (Ascii.eqb c "/")) rest
  = true ->
  extname (dir ++ String "." rest) = ""
  /\ getLangForFile (dir ++ String "." rest) = ""
  /\ own_property ".bashrc" EXT_TO_LANG = Some "bash"
  /\ own_property ".env" EXT_TO_LANG = Some "bash"
  /\ own_property ".envrc" EXT_TO_LANG = Some "bash"
  /\ own_property ".zshrc" EXT_TO_LANG = Some "bash"
  /\ own_property ".htaccess" EXT_TO_LANG = Some "apache".
Proof.
  intros Hdir Hrest.
  assert (E : extname (dir ++ String "." rest) = "").
  { unfold extname. rewrite (basename_dotfile _ _ Hdir Hrest).
    rewrite (last_dot_none _ Hrest). reflexivity. }
  split; [exact E|]. split.
  - unfold getLangForFile. rewrite E. reflexivity.
  - repeat split.
Qed.

Lemma getLangForFile_dotfile_untagged_witness :
  getLangForFile "/home/u/.bashrc" = ""
  /\ getLangForFile ".env" = ""
  /\ getLangForFile "/srv/www/.htaccess" = "".
Proof.
  split; [|split].
  - apply (getLangForFile_dotfile_untagged "/home/u/" "bashrc");
      [right; exists "/home/u"; reflexivity | reflexivity].
  - apply (getLangForFile_dotfile_untagged "" "env");
      [left; reflexivity | reflexivity].
  - apply (getLangForFile_dotfile_untagged "/srv/www/" "htaccess");
      [right; exists "/srv/www"; reflexivity | reflexivity].
Defined.

(* ================================================================== *)
(** * [compileExcludeRegexes] *)
(* ================================================================== *)

(** The pattern of the fallback needs a closing bracket to match: a text
    without one is returned as it is. *)
Lemma escapeReplace_no_bracket (s : string) :
  string_forallb (fun c => negb (Ascii.eqb c "]")) s = true ->
  escapeReplace s = s.
Proof.
  induction s as [|c s IH]; [reflexivity|]. intros H.
  simpl in H. apply andb_true_iff in H as [_ Hs]. specialize (IH Hs).
  cbn [escapeReplace]. fold escapeReplace.
  destruct s as [|b1 [|b2 [|r rest]]]; try (rewrite IH; reflexivity).
  simpl in Hs.
  apply andb_true_iff in Hs as [_ Hs]. apply andb_true_iff in Hs as [_ Hs].
  apply andb_true_iff in Hs as [Hr _]. apply negb_true_iff in Hr.
  rewrite Hr, !andb_false_r, IH. reflexivity.
Qed.

Lemma map_throwing_none {A B : Type} (f : A -> option B) (l : list A) (x : A) :
  In x l -> f x = None -> map_throwing f l = None.
Proof.
  induction l as [|y l IH]; simpl; [tauto|].
  intros [-> | Hin] Hx.
  - rewrite Hx. reflexivity.
  - destruct (f y); [|reflexivity]. rewrite (IH Hin Hx). reflexivity.
Qed.

Lemma patterns_of_nonempty (excludeStr pat : string) :
  In pat (patterns_of excludeStr) -> excludeStr <> "".
Proof. intros Hin ->. vm_compute in Hin. exact Hin. Qed.

(** C1 (the code departs from the claim).  The claim is that a pattern that
    does not compile still yields a rule and never aborts the run.  In the
    code the fallback leaves every pattern without a closing bracket
    unchanged, so [new RegExp] is handed the same malformed text again: its
    exception leaves the [catch] block, [compileExcludeRegexes] throws, and
    [main] ends with exit code 1 before any file is collected. *)
Theorem malformed_pattern_aborts_compileExcludeRegexes
  (rt : Runtime) (excludeStr pat : string) :
  In pat (patterns_of excludeStr) ->
  RegExp_new rt pat = None ->
  string_forallb (fun c => negb (Ascii.eqb c "]")) pat = true ->
  compileExcludeRegexes rt (Some excludeStr) = None
  /\ forall fs cwd fuel inp outp,
       falsy (Some inp) = false ->
       fs_stat fs (path_resolve cwd inp) = Some SDir ->
       main_body rt fs cwd fuel (Some inp) (Some excludeStr) outp false
       = Some (exit_with 1).
Proof.
  intros Hin Hnew Hbr.
  assert (H : compileExcludeRegexes rt (Some excludeStr) = None).
  { unfold compileExcludeRegexes.
    destruct (String.eqb excludeStr "") eqn:E.
    - apply String.eqb_eq in E.
      destruct (patterns_of_nonempty _ _ Hin E).
    - apply (map_throwing_none _ _ pat Hin).
      unfold compile_one.
      rewrite Hnew, (escapeReplace_no_bracket _ Hbr), Hnew. reflexivity. }
  split; [exact H|].
  intros fs cwd fuel inp outp Hinp Hstat.
  unfold main_body. rewrite Hinp. cbn [orb]. rewrite Hstat, H. reflexivity.
Qed.

Lemma malformed_pattern_aborts_witness :
  compileExcludeRegexes node_host (Some "sub,(") = None
  /\ main node_host scenario_fs cwd0 10
          ["node"; "merge-to-md"; "-i"; "/r"; "-e"; "sub,("]
     = Some (exit_with 1).
Proof.
  assert (Hin : In "(" (patterns_of "sub,(")) by (right; left; reflexivity).
  destruct (malformed_pattern_aborts_compileExcludeRegexes
              node_host "sub,(" "(" Hin eq_refl eq_refl) as [H1 H2].
  split; [exact H1|].
  apply (H2 scenario_fs cwd0 10 "/r" None);
    reflexivity.
Defined.

(* ================================================================== *)
(** * [parseArgs] and [main]: the options [main] does not read *)
(* ================================================================== *)

Lemma parse_key_value_read_by_main (a a' : Args) (w : string) :
  read_by_main a = read_by_main a' ->
  read_by_main (parse_key_value a w) = read_by_main (parse_key_value a' w).
Proof.
  unfold read_by_main, parse_key_value. intros H.
  injection H as Hi He Ho Hh.
  repeat match goal with
         | [ |- context [startsWith w ?k] ] => destruct (startsWith w k)
         end; simpl; congruence.
Qed.

(** What [main] reads of the parsed arguments depends only on what it reads
    of the arguments the loop started from. *)
Lemma parse_loop_read_by_main (n : nat) :
  forall (rest : list string) (a a' : Args),
    List.length rest <= n ->
    read_by_main a = read_by_main a' ->
    read_by_main (parse_loop a rest) = read_by_main (parse_loop a' rest).
Proof.
  induction n as [|n IH]; intros rest a a' Hlen H.
  - destruct rest; [exact H | simpl in Hlen; lia].
  - destruct rest as [|w rest]; [exact H|].
    simpl in Hlen. cbn [parse_loop].
    assert (Hstep : forall b b', read_by_main b = read_by_main b' ->
              read_by_main (parse_loop b rest)
              = read_by_main (parse_loop b' rest))
      by (intros; apply IH; [lia|assumption]).
    assert (Hskip : forall b b', read_by_main b = read_by_main b' ->
              forall v rest', rest = v :: rest' ->
              read_by_main (parse_loop b rest')
              = read_by_main (parse_loop b' rest'))
      by (intros b b' Hb v rest' ->; apply IH; [simpl in Hlen; lia|assumption]).
    injection H as Hi He Ho Hh.
    repeat match goal with
           | [ |- context [if ?c then _ else _] ] => destruct c
           end;
      try (destruct rest as [|v rest'];
           [unfold read_by_main; simpl; congruence
           | eapply Hskip; [|reflexivity]; unfold read_by_main; simpl;
             congruence]);
      try (apply Hstep; unfold read_by_main; simpl; congruence);
      try (unfold read_by_main; simpl; congruence).
    apply Hstep, parse_key_value_read_by_main.
    unfold read_by_main; congruence.
Qed.

Lemma main_read_by_main (rt : Runtime) (fs : FileSystem) (cwd : path)
  (fuel : nat) (argv argv' : list string) :
  read_by_main (parseArgs argv) = read_by_main (parseArgs argv') ->
  main rt fs cwd fuel argv = main rt fs cwd fuel argv'.
Proof.
  unfold main, read_by_main. intros H. injection H as -> -> -> ->.
  reflexivity.
Qed.

(** C3 (the code departs from the claim).  [parseArgs] records [--dry-run],
    but [main] never reads the flag: a run with it is the run without it.
    On the tree of the scenarios it writes [context.md] with both text
    files, where the claim and the usage text of the program promise that
    nothing is written. *)
Theorem dry_run_invokes_the_write_step :
  (forall rt fs cwd fuel node script rest,
      main rt fs cwd fuel (node :: script :: "--dry-run" :: rest)
      = main rt fs cwd fuel (node :: script :: rest))
  /\ dryRun (parseArgs ["node"; "merge-to-md"; "-i"; "/r"; "--dry-run"]) = true
  /\ main node_host scenario_fs cwd0 10
          ["node"; "merge-to-md"; "-i"; "/r"; "--dry-run"]
     = Some {| exitCode := 0;
               written :=
                 [(["home"; "u"; "context.md"],
                   (render_block {| full := ["r"; "a.py"]; rel := "a.py" |}
                                 (list_byte_of_string "print(1)")
                    ++ render_block
                         {| full := ["r"; "sub"; "c.go"]; rel := "sub/c.go" |}
                         (list_byte_of_string "package main"))%string)] |}.
Proof.
  split; [|split].
  - intros. apply main_read_by_main. unfold parseArgs.
    cbn [skipn]. cbn [parse_loop]. simpl.
    apply (parse_loop_read_by_main (List.length rest)); [lia|reflexivity].
  - reflexivity.
  - vm_compute. reflexivity.
Qed.

(** What the traversal returns for [maxDepth = 0] on a tree with one root
    file and one subdirectory: the root file only. *)
Lemma collectFiles_depth_0 :
  collectFiles node_host depth_fs cwd0 10 "/r"
               [] (JFin 0) false
  = Some [{| full := ["r"; "a.py"]; rel := "a.py" |}].
Proof. vm_compute. reflexivity. Qed.

(** C4 (the code departs from the claim).  [parseArgs] turns
    [--max-depth 0] into [maxDepth = 0], but [main] calls [collectFiles]
    without it, so the traversal runs with the default [Infinity]: a run
    with the option is the run without it, and on a tree with one root file
    and one subdirectory the document holds the block of [sub/c.go] too. *)
Theorem max_depth_is_not_passed_to_collectFiles :
  (forall rt fs cwd fuel node script depth rest,
      main rt fs cwd fuel (node :: script :: "--max-depth" :: depth :: rest)
      = main rt fs cwd fuel (node :: script :: rest))
  /\ maxDepth (parseArgs ["node"; "merge-to-md"; "-i"; "/r"; "--max-depth"; "0"])
     = JFin 0
  /\ main node_host depth_fs cwd0 10
          ["node"; "merge-to-md"; "-i"; "/r"; "--max-depth"; "0"]
     = Some {| exitCode := 0;
               written :=
                 [(["home"; "u"; "context.md"],
                   (render_block {| full := ["r"; "a.py"]; rel := "a.py" |}
                                 (list_byte_of_string "print(1)")
                    ++ render_block
                         {| full := ["r"; "sub"; "c.go"]; rel := "sub/c.go" |}
                         (list_byte_of_string "package main"))%string)] |}.
Proof.
  split; [|split].
  - intros. apply main_read_by_main. unfold parseArgs.
    cbn [skipn]. cbn [parse_loop]. simpl.
    apply (parse_loop_read_by_main (List.length rest)); [lia|reflexivity].
  - reflexivity.
  - vm_compute. reflexivity.
Qed.

(* ================================================================== *)
(** * [buildContext] *)
(* ================================================================== *)

Lemma buildContext_from_out (rt : Runtime) (fs : FileSystem)
  (files : list FileRef) (out : string) :
  buildContext_from rt fs files out
  = (out ++ buildContext rt fs files)%string.
Proof.
  unfold buildContext. revert out.
  induction files as [|f files IH]; intros out; simpl.
  - symmetry. apply append_nil_r.
  - destruct (fs_readFile fs (full f)) as [buffer|]; [|apply IH].
    destruct (isBinaryFileSync rt buffer (List.length buffer)); [apply IH|].
    rewrite IH, (IH (render_block f buffer)). apply append_assoc.
Qed.

Lemma buildContext_cons (rt : Runtime) (fs : FileSystem) (f : FileRef)
  (files : list FileRef) :
  buildContext rt fs (f :: files)
  = match fs_readFile fs (full f) with
    | Some buffer =>
        if isBinaryFileSync rt buffer (List.length buffer)
        then buildContext rt fs files
        else (render_block f buffer ++ buildContext rt fs files)%string
    | None => buildContext rt fs files
    end.
Proof.
  unfold buildContext at 1. simpl.
  destruct (fs_readFile fs (full f)) as [buffer|]; [|reflexivity].
  destruct (isBinaryFileSync rt buffer (List.length buffer)); [reflexivity|].
  apply buildContext_from_out.
Qed.

Lemma buildContext_app (rt : Runtime) (fs : FileSystem)
  (l1 l2 : list FileRef) :
  buildContext rt fs (l1 ++ l2)
  = (buildContext rt fs l1 ++ buildContext rt fs l2)%string.
Proof.
  induction l1 as [|f l1 IH]; [reflexivity|].
  simpl app. rewrite !buildContext_cons.
  destruct (fs_readFile fs (full f)) as [buffer|]; [|exact IH].
  destruct (isBinaryFileSync rt buffer (List.length buffer)); [exact IH|].
  rewrite IH. symmetry. apply append_assoc.
Qed.

(** Without a file that passes the detector the document is empty. *)
Lemma buildContext_none_eligible (rt : Runtime) (fs : FileSystem)
  (files : list FileRef) :
  filter (eligible rt fs) files = [] -> buildContext rt fs files = "".
Proof.
  induction files as [|f files IH]; [reflexivity|].
  simpl. rewrite buildContext_cons. unfold eligible at 1.
  destruct (fs_readFile fs (full f)) as [buffer|]; [|exact IH].
  destruct (isBinaryFileSync rt buffer (List.length buffer));
    [exact IH | discriminate].
Qed.

(** [isLikelyBinary] is the test for a NUL byte. *)
Lemma isLikelyBinary_spec (buffer : list byte) :
  isLikelyBinary buffer = true <-> In x00 buffer.
Proof.
  induction buffer as [|b buffer IH]; simpl.
  - split; [discriminate|tauto].
  - destruct (Byte.eqb b x00) eqn:E.
    + apply Byte.byte_dec_bl in E. split; auto.
    + rewrite IH. split; [auto|]. intros [->|H]; [|exact H].
      rewrite (Byte.byte_dec_lb eq_refl) in E. discriminate.
Qed.




(* ================================================================== *)
(** * [main]: the empty result *)
(* ================================================================== *)

(** C5 (a counterexample to the claim as stated).  In a tree whose every
    file is binary no file is eligible, yet the run ends with exit code 0
    and writes an empty [context.md]: [main] tests the length of the list
    that [collectFiles] returned, and the binary files are in that list. *)
Lemma all_binary_tree_is_written :
  collectFiles node_host binary_fs cwd0 10 "/r" [] JInf false
  = Some [{| full := ["r"; "b.bin"]; rel := "b.bin" |};
          {| full := ["r"; "sub"; "c.bin"]; rel := "sub/c.bin" |}]
  /\ filter (eligible node_host binary_fs)
            [{| full := ["r"; "b.bin"]; rel := "b.bin" |};
             {| full := ["r"; "sub"; "c.bin"]; rel := "sub/c.bin" |}] = []
  /\ main node_host binary_fs cwd0 10 ["node"; "merge-to-md"; "-i"; "/r"]
     = Some {| exitCode := 0;
               written := [(["home"; "u"; "context.md"], "")] |}
  /\ main node_host binary_fs cwd0 10 ["node"; "merge-to-md"; "-i"; "/r"]
     <> Some (exit_with 4).
Proof. repeat split. discriminate. Qed.

(** C5, amended.  Once the input is a directory and the patterns compile,
    the run ends with exit code 4, and writes nothing, exactly when the
    traversal returned no file; binary files count as returned. *)
Theorem exit_4_iff_traversal_returns_nothing
  (rt : Runtime) (fs : FileSystem) (cwd : path) (fuel : nat)
  (argv : list string) (inp : string) (regexes : list (RegExp rt))
  (files : list FileRef) :
  help (parseArgs argv) = false ->
  input (parseArgs argv) = Some inp ->
  inp <> "" ->
  fs_stat fs (path_resolve cwd inp) = Some SDir ->
  compileExcludeRegexes rt (exclude (parseArgs argv)) = Some regexes ->
  collectFiles rt fs cwd fuel (path_str (path_resolve cwd inp)) regexes
               JInf false = Some files ->
  exists out,
    main rt fs cwd fuel argv = Some out
    /\ (files = [] -> out = exit_with 4)
    /\ (files <> [] -> exitCode out <> 4%Z).
Proof.
  intros Hhelp Hinp Hne Hstat Hre Hfiles.
  unfold main, main_body. rewrite Hhelp, Hinp. cbn [orb falsy].
  destruct (String.eqb inp "") eqn:E;
    [apply String.eqb_eq in E; congruence|].
  rewrite Hstat, Hre, Hfiles.
  destruct files as [|f files].
  - eexists. split; [reflexivity|]. split; [reflexivity|congruence].
  - match goal with
    | [ |- context [fs_writeFile fs ?p ?c] ] => destruct (fs_writeFile fs p c)
    end; eexists; (split; [reflexivity|]); split; intros; simpl;
      congruence.
Qed.

Lemma exit_4_iff_traversal_returns_nothing_witness :
  main node_host empty_fs cwd0 10
       ["node"; "merge-to-md"; "-i"; "/r"]
  = Some (exit_with 4).
Proof.
  destruct (exit_4_iff_traversal_returns_nothing
              node_host empty_fs cwd0 10
              ["node"; "merge-to-md"; "-i"; "/r"] "/r" [] []
              eq_refl eq_refl ltac:(discriminate) eq_refl eq_refl eq_refl)
    as [out [Hmain [Hempty _]]].
  rewrite Hmain, (Hempty eq_refl). reflexivity.
Defined.

(* ================================================================== *)
(** * [collectFiles]: sorting and the loop *)
(* ================================================================== *)

Lemma insert_by_perm (rt : Runtime) {A : Type} (key : A -> string)
  (x : A) (l : list A) :
  Permutation (insert_by rt key x l) (x :: l).
Proof.
  induction l as [|y l IH]; simpl; [reflexivity|].
  destruct (localeCompare_base rt (key x) (key y) <=? 0)%Z; [reflexivity|].
  rewrite IH. apply perm_swap.
Qed.

Lemma sort_by_perm (rt : Runtime) {A : Type} (key : A -> string)
  (l : list A) :
  Permutation (sort_by rt key l) l.
Proof.
  induction l as [|x l IH]; simpl; [reflexivity|].
  rewrite insert_by_perm, IH. reflexivity.
Qed.

Lemma sort_by_Forall (rt : Runtime) {A : Type} (key : A -> string)
  (P : A -> Prop) (l : list A) :
  Forall P l -> Forall P (sort_by rt key l).
Proof.
  intros H. apply (Permutation_Forall (Permutation_sym (sort_by_perm rt key l))).
  exact H.
Qed.

(** A property of the accumulator that every iteration preserves holds
    when the loop is left. *)
Lemma for_of_invariant {S E : Type} (I : S -> Prop) (P : E -> Prop)
  (body : E -> S -> option S) (l : list E) :
  (forall e s s', P e -> I s -> body e s = Some s' -> I s') ->
  Forall P l ->
  forall s s', I s -> for_of body l s = Some s' -> I s'.
Proof.
  intros Hbody. induction l as [|e l IH]; intros Hall s s' Hs; simpl.
  - intros [= <-]. exact Hs.
  - inversion Hall as [|? ? He Hl]; subst.
    destruct (body e s) as [s1|] eqn:Hb; [|discriminate].
    apply (IH Hl). apply (Hbody e s s1 He Hs Hb).
Qed.

(* ================================================================== *)
(** * [collectFiles]: relative paths stay below the root *)
(* ================================================================== *)

Lemma below_no_dotdot (root : path) (f : FileRef) :
  below root f -> ~ In ".." (rel_segments f).
Proof.
  intros (segs & Hne & Hall & _ & Hrel).
  unfold rel_segments. rewrite Hrel, (split_join segs Hne Hall).
  apply valid_name_not_dotdot, Hall.
Qed.

Section Below.
Variable rt : Runtime.
Variable fs : FileSystem.
Variable resolvedRoot : path.
Variable excludeRegexes : list (RegExp rt).
Variable maxDepth : jsnum.
Variable followSymlinks : bool.
Hypothesis Hnames : names_ok fs.

Let walk_ := walk rt fs resolvedRoot excludeRegexes maxDepth followSymlinks.
Let visit_ := visit rt fs resolvedRoot excludeRegexes followSymlinks.

Lemma entry_inside (dir : path) (nm : string) :
  inside resolvedRoot dir -> valid_name nm = true ->
  inside resolvedRoot (path_join dir nm)
  /\ below resolvedRoot
       {| full := path_join dir nm;
          rel := join "/" (split_on "/"
                   (path_relative resolvedRoot (path_join dir nm))) |}.
Proof.
  intros (ds & Hds & ->) Hnm.
  rewrite (path_join_valid _ _ Hnm), <- app_assoc.
  assert (Hall : Forall (fun s => valid_name s = true) (ds ++ [nm]))
    by (apply Forall_app; split; [exact Hds | repeat constructor; exact Hnm]).
  assert (Hne : ds ++ [nm] <> []) by (destruct ds; discriminate).
  split.
  - exists (ds ++ [nm]). split; [exact Hall | reflexivity].
  - exists (ds ++ [nm]). repeat split; try assumption. simpl.
    rewrite path_relative_below, (split_join _ Hne Hall). reflexivity.
Qed.

Lemma visit_keeps_below
  (w : path -> nat -> list FileRef -> option (list FileRef))
  (dir : path) (depth : nat) (ent : Dirent) (files files' : list FileRef) :
  keeps_below resolvedRoot w ->
  inside resolvedRoot dir ->
  valid_name (name ent) = true ->
  Forall (below resolvedRoot) files ->
  visit_ w dir depth ent files = Some files' ->
  Forall (below resolvedRoot) files'.
Proof.
  intros Hw Hdir Hnm Hfiles.
  destruct (entry_inside dir (name ent) Hdir Hnm) as [Hin Hbelow].
  assert (Hpush : Forall (below resolvedRoot)
            (files ++ [{| full := path_join dir (name ent);
                          rel := join "/" (split_on "/"
                            (path_relative resolvedRoot
                               (path_join dir (name ent)))) |}]))
    by (apply Forall_app; split; [exact Hfiles | repeat constructor; exact Hbelow]).
  unfold visit_, visit.
  destruct (_ || _); [intros [= <-]; exact Hfiles|].
  destruct (kind ent).
  - apply Hw; assumption.
  - intros [= <-]. exact Hpush.
  - destruct followSymlinks; [|intros [= <-]; exact Hfiles].
    destruct (fs_stat fs _) as [[| |]|]; try (intros [= <-]; assumption).
    destruct (fs_realpath fs _) as [resolvedPath|];
      [|intros [= <-]; exact Hfiles].
    destruct (negb _); [intros [= <-]; exact Hfiles|].
    apply Hw; assumption.
  - intros [= <-]. exact Hfiles.
Qed.

Lemma walk_keeps_below (fuel : nat) : keeps_below resolvedRoot (walk_ fuel).
Proof.
  induction fuel as [|fuel IH]; intros dir depth files files' Hdir Hfiles;
    [discriminate|].
  unfold walk_. cbn [walk]. fold (walk_ fuel).
  destruct (gt_num depth maxDepth); [intros [= <-]; exact Hfiles|].
  destruct (fs_readdir fs dir) as [entries|] eqn:E;
    [|intros [= <-]; exact Hfiles].
  apply (for_of_invariant (Forall (below resolvedRoot))
           (fun e => valid_name (name e) = true)); [| |exact Hfiles].
  - intros e s s' He Hs. apply (visit_keeps_below _ _ _ _ _ _ IH Hdir He Hs).
  - apply sort_by_Forall, (Hnames _ _ E).
Qed.
End Below.

(** C6.  Every reference that [collectFiles] returns lies below the
    resolved root: its [full] path is the root followed by the names of the
    entries that lead to it, and [rel] is these names joined by [/], so no
    segment of [rel] is [..].  The paths are built from the names of the
    entries, never from the real path of a link, and this holds whatever
    the prefix test on followed links lets through. *)
Theorem collectFiles_rel_without_dotdot
  (rt : Runtime) (fs : FileSystem) (cwd : path) (fuel : nat) (root : string)
  (excludeRegexes : list (RegExp rt)) (maxDepth : jsnum)
  (followSymlinks : bool) (files : list FileRef) :
  names_ok fs ->
  collectFiles rt fs cwd fuel root excludeRegexes maxDepth followSymlinks
  = Some files ->
  Forall (fun f => below (path_resolve cwd root) f
                   /\ ~ In ".." (rel_segments f)) files.
Proof.
  intros Hnames Hrun.
  assert (H : Forall (below (path_resolve cwd root)) files).
  { apply (walk_keeps_below rt fs (path_resolve cwd root) excludeRegexes
             maxDepth followSymlinks Hnames fuel
             (path_resolve cwd root) 0 [] files).
    - exists []. split; [constructor | symmetry; apply app_nil_r].
    - constructor.
    - exact Hrun. }
  apply Forall_impl with (2 := H).
  intros f Hf. split; [exact Hf | apply (below_no_dotdot _ _ Hf)].
Qed.

(* ================================================================== *)
(** * File systems given by a tree *)
(* ================================================================== *)

Lemma world_names_ok_child (es : list (string * Node)) (s : string) (c : Node) :
  world_names_ok (NDir es) = true ->
  lookup_child s es = Some c ->
  world_names_ok c = true.
Proof.
  induction es as [|[k n] es IH]; simpl; [discriminate|].
  intros H. apply andb_true_iff in H as [H Hes].
  apply andb_true_iff in H as [_ Hn].
  destruct (String.eqb k s); [intros [= <-]; exact Hn | apply IH, Hes].
Qed.

Lemma world_names_ok_entries (es : list (string * Node)) :
  world_names_ok (NDir es) = true ->
  Forall (fun e => valid_name (name e) = true) (map dirent_of es).
Proof.
  induction es as [|[k n] es IH]; simpl; [constructor|].
  intros H. apply andb_true_iff in H as [H Hes].
  apply andb_true_iff in H as [Hk _].
  constructor; [exact Hk | apply IH, Hes].
Qed.

Lemma descend_names_ok (follow : path -> option (path * Node)) :
  (forall q r n, follow q = Some (r, n) -> world_names_ok n = true) ->
  forall segs cur real r n,
    world_names_ok cur = true ->
    descend follow cur real segs = Some (r, n) ->
    world_names_ok n = true.
Proof.
  intros Hfollow.
  induction segs as [|s rest IH]; intros cur real r n Hcur;
    destruct cur as [content|es|target]; simpl;
    try discriminate; try (apply Hfollow).
  - intros [= _ <-]. exact Hcur.
  - intros [= _ <-]. exact Hcur.
  - destruct (lookup_child s es) as [c|] eqn:E; [|discriminate].
    apply IH, (world_names_ok_child es s c Hcur E).
Qed.

Lemma resolve_names_ok (w : Node) (hops : nat) :
  world_names_ok w = true ->
  forall p r n, resolve hops w p = Some (r, n) -> world_names_ok n = true.
Proof.
  intros Hw. induction hops as [|h IH]; intros p r n; simpl;
    apply descend_names_ok; try exact Hw.
  - discriminate.
  - exact IH.
Qed.

(** Every directory of a tree with valid names lists valid names. *)
Lemma fs_of_world_names_ok (hops : nat) (w : Node) :
  world_names_ok w = true -> names_ok (fs_of_world hops w).
Proof.
  intros Hw p es. simpl.
  destruct (resolve hops w p) as [[r [c|es'|t]]|] eqn:E; try discriminate.
  intros [= <-].
  apply world_names_ok_entries, (resolve_names_ok w hops Hw p r _ E).
Qed.

Lemma collectFiles_rel_without_dotdot_witness :
  Forall (fun f => below ["data"] f /\ ~ In ".." (rel_segments f))
         [{| full := ["data"; "a.txt"]; rel := "a.txt" |};
          {| full := ["data"; "link"; "secret.txt"];
             rel := "link/secret.txt" |}].
Proof.
  apply (collectFiles_rel_without_dotdot node_host
           prefix_fs cwd0 10 "/data" [] JInf true).
  - apply fs_of_world_names_ok. reflexivity.
  - reflexivity.
Defined.

(* ================================================================== *)
(** * [collectFiles]: a finite depth bound ends the recursion *)
(* ================================================================== *)

Lemma for_of_returns {S E : Type} (body : E -> S -> option S) (l : list E) :
  (forall e s, exists s', body e s = Some s') ->
  forall s, exists s', for_of body l s = Some s'.
Proof.
  intros Hbody. induction l as [|e l IH]; intros s; simpl.
  - exists s. reflexivity.
  - destruct (Hbody e s) as [s1 ->]. apply IH.
Qed.

Section Bounded.
Variable rt : Runtime.
Variable fs : FileSystem.
Variable resolvedRoot : path.
Variable excludeRegexes : list (RegExp rt).
Variable bound : Z.
Variable followSymlinks : bool.

Let walk_ := walk rt fs resolvedRoot excludeRegexes (JFin bound) followSymlinks.
Let visit_ := visit rt fs resolvedRoot excludeRegexes followSymlinks.

Lemma visit_returns
  (w : path -> nat -> list FileRef -> option (list FileRef))
  (dir : path) (depth : nat) (ent : Dirent) (files : list FileRef) :
  (forall d fl, exists fl', w d (S depth) fl = Some fl') ->
  exists files', visit_ w dir depth ent files = Some files'.
Proof.
  intros Hw. unfold visit_, visit.
  destruct (_ || _); [eexists; reflexivity|].
  destruct (kind ent); try (eexists; reflexivity); try apply Hw.
  destruct followSymlinks; [|eexists; reflexivity].
  destruct (fs_stat fs _) as [[| |]|]; try (eexists; reflexivity).
  destruct (fs_realpath fs _); [|eexists; reflexivity].
  destruct (negb _); [eexists; reflexivity | apply Hw].
Qed.

(** With [k] levels left before the bound, [k + 1] nested calls are
    enough, whatever the file system answers. *)
Lemma walk_returns_within_bound (k : nat) :
  forall depth dir files,
    (bound < Z.of_nat depth + Z.of_nat k)%Z ->
    exists files', walk_ (S k) dir depth files = Some files'.
Proof.
  induction k as [|k IH]; intros depth dir files Hk;
    unfold walk_; cbn [walk gt_num]; fold walk_; fold visit_.
  - destruct (Z.ltb_spec bound (Z.of_nat depth)); [|lia].
    eexists; reflexivity.
  - destruct (bound <? Z.of_nat depth)%Z; [eexists; reflexivity|].
    destruct (fs_readdir fs dir); [|eexists; reflexivity].
    apply for_of_returns. intros e s. apply visit_returns.
    intros d fl. apply IH. lia.
Qed.
End Bounded.

(** [collectFiles] with a finite [maxDepth] returns on every file system,
    cyclic or not. *)
Lemma collectFiles_returns_for_finite_depth
  (rt : Runtime) (fs : FileSystem) (cwd : path) (root : string)
  (excludeRegexes : list (RegExp rt)) (bound : Z) (followSymlinks : bool) :
  exists files,
    collectFiles rt fs cwd (S (Z.to_nat (bound + 1))) root excludeRegexes
                 (JFin bound) followSymlinks = Some files.
Proof.
  unfold collectFiles. apply walk_returns_within_bound. lia.
Qed.

(* ================================================================== *)
(** * [collectFiles]: a link that leads back to the root *)
(* ================================================================== *)

Lemma loops_valid (n : nat) (tail : list string) :
  Forall (fun s => valid_name s = true) tail ->
  Forall (fun s => valid_name s = true) (List.repeat "loop" n ++ tail).
Proof.
  intros H. apply Forall_app. split; [|exact H].
  induction n; simpl; constructor; [reflexivity|assumption].
Qed.

Lemma loops_snoc (n : nat) :
  List.repeat "loop" n ++ ["loop"] = List.repeat "loop" (S n).
Proof. symmetry. apply (repeat_cons n "loop"). Qed.

Lemma descend_link (follow : path -> option (path * Node))
  (target real segs : path) :
  descend follow (NLink target) real segs = follow (target ++ segs).
Proof. destruct segs; reflexivity. Qed.

(** In [loop_world] the path [/r/loop/.../loop] with [n] links leads to
    [/r] when the kernel follows that many links, and fails otherwise. *)
Lemma resolve_loops (n : nat) :
  forall hops,
    resolve hops loop_world ("r" :: List.repeat "loop" n)
    = if (n <=? hops)%nat then Some (["r"], loop_dir) else None.
Proof.
  induction n as [|n IH]; intros hops.
  - destruct hops; reflexivity.
  - assert (Hstep : forall follow,
              descend follow loop_world [] ("r" :: List.repeat "loop" (S n))
              = follow ("r" :: List.repeat "loop" n)).
    { intros follow.
      change (descend follow loop_world [] ("r" :: List.repeat "loop" (S n)))
        with (descend follow (NLink ["r"]) ["r"; "loop"] (List.repeat "loop" n)).
      apply descend_link. }
    destruct hops as [|h]; cbn [resolve]; rewrite Hstep.
    + reflexivity.
    + rewrite IH. reflexivity.
Qed.

Lemma drop_loops_repeat (n : nat) : drop_loops (List.repeat "loop" n) = [].
Proof. induction n; simpl; [reflexivity|assumption]. Qed.

Section LoopWalk.
Variable fs : FileSystem.

Let walk_ := walk node_host fs ["r"] [] JInf true.
Let visit_ := visit node_host fs ["r"] [] true.

Lemma visit_loop_file (w : path -> nat -> list FileRef -> option (list FileRef))
  (n depth : nat) (files : list FileRef) :
  visit_ w ("r" :: List.repeat "loop" n) depth
         {| name := "a.txt"; kind := KFile |} files
  = Some (files ++ [loop_ref n]).
Proof.
  unfold visit_, visit. cbn [name kind matchesAnyRegex existsb orb].
  rewrite path_join_valid by reflexivity.
  change (("r" :: List.repeat "loop" n) ++ ["a.txt"])
    with (["r"] ++ (List.repeat "loop" n ++ ["a.txt"])).
  rewrite path_relative_below, split_join.
  - reflexivity.
  - destruct n; discriminate.
  - apply loops_valid. repeat constructor.
Qed.

Lemma visit_loop_link (w : path -> nat -> list FileRef -> option (list FileRef))
  (n depth : nat) (files : list FileRef) :
  visit_ w ("r" :: List.repeat "loop" n) depth
         {| name := "loop"; kind := KSymlink |} files
  = match fs_stat fs ("r" :: List.repeat "loop" (S n)) with
    | Some SDir =>
        match fs_realpath fs ("r" :: List.repeat "loop" (S n)) with
        | Some resolvedPath =>
            if negb (startsWith (path_str resolvedPath) (path_str ["r"]))
            then Some files
            else w ("r" :: List.repeat "loop" (S n)) (S depth) files
        | None => Some files
        end
    | Some SFile =>
        Some (files ++ [{| full := "r" :: List.repeat "loop" (S n);
                           rel := join "/" (List.repeat "loop" (S n)) |}])
    | _ => Some files
    end.
Proof.
  unfold visit_, visit. cbn [name kind matchesAnyRegex existsb orb].
  rewrite path_join_valid by reflexivity.
  change (("r" :: List.repeat "loop" n) ++ ["loop"])
    with ("r" :: (List.repeat "loop" n ++ ["loop"])).
  rewrite loops_snoc.
  destruct (fs_stat fs _) as [[| |]|]; try reflexivity.
  change ("r" :: List.repeat "loop" (S n))
    with (["r"] ++ List.repeat "loop" (S n)).
  rewrite path_relative_below, split_join.
  - reflexivity.
  - discriminate.
  - rewrite <- (app_nil_r (List.repeat "loop" (S n))).
    apply loops_valid. constructor.
Qed.

(** One call of [walk] in a directory that lists [a.txt] and [loop]. *)
Lemma walk_loop_step (fuel n depth : nat) (files : list FileRef) :
  fs_readdir fs ("r" :: List.repeat "loop" n)
  = Some [{| name := "a.txt"; kind := KFile |};
          {| name := "loop"; kind := KSymlink |}] ->
  walk_ (S fuel) ("r" :: List.repeat "loop" n) depth files
  = visit_ (walk_ fuel) ("r" :: List.repeat "loop" n) depth
           {| name := "loop"; kind := KSymlink |} (files ++ [loop_ref n]).
Proof.
  intros Hdir. unfold walk_ at 1. cbn [walk gt_num]. rewrite Hdir.
  change (sort_by node_host name
            [{| name := "a.txt"; kind := KFile |};
             {| name := "loop"; kind := KSymlink |}])
    with [{| name := "a.txt"; kind := KFile |};
          {| name := "loop"; kind := KSymlink |}].
  cbn [for_of]. fold walk_. fold visit_.
  rewrite visit_loop_file.
  destruct (visit_ _ _ _ _ _); reflexivity.
Qed.
End LoopWalk.

(** With a kernel that follows at most [hops] links, the walk goes round
    the cycle until the kernel refuses the path, and collects [/r/a.txt]
    once per round. *)
Lemma walk_loop_bounded (hops : nat) :
  forall k n files,
    n + k = hops ->
    walk node_host (fs_of_world hops loop_world) ["r"] [] JInf true
         (S k) ("r" :: List.repeat "loop" n) n files
    = Some (files ++ map loop_ref (seq n (S k))).
Proof.
  assert (Hdir : forall n, n <= hops ->
            fs_readdir (fs_of_world hops loop_world)
                       ("r" :: List.repeat "loop" n)
            = Some [{| name := "a.txt"; kind := KFile |};
                    {| name := "loop"; kind := KSymlink |}]).
  { intros n Hn. cbn [fs_readdir fs_of_world]. rewrite resolve_loops.
    destruct (Nat.leb_spec n hops); [reflexivity|lia]. }
  induction k as [|k IH]; intros n files Hn.
  - rewrite walk_loop_step by (apply Hdir; lia).
    rewrite visit_loop_link.
    cbn [fs_stat fs_of_world]. rewrite resolve_loops.
    destruct (Nat.leb_spec (S n) hops); [lia|reflexivity].
  - rewrite walk_loop_step by (apply Hdir; lia).
    rewrite visit_loop_link.
    cbn [fs_stat fs_realpath fs_of_world]. rewrite resolve_loops.
    destruct (Nat.leb_spec (S n) hops); [|lia].
    change (negb (startsWith (path_str ["r"]) (path_str ["r"]))) with false.
    cbv iota. rewrite IH by lia.
    rewrite <- app_assoc. reflexivity.
Qed.

(** Without a bound on the links followed, no number of nested calls is
    enough. *)
Lemma walk_loop_unbounded (fuel : nat) :
  forall n depth files,
    walk node_host loop_fs_unbounded ["r"] [] JInf true
         fuel ("r" :: List.repeat "loop" n) depth files = None.
Proof.
  assert (Hunfold : forall n, unfold_loops ("r" :: List.repeat "loop" n) = ["r"])
    by (intros n; simpl; rewrite drop_loops_repeat; reflexivity).
  induction fuel as [|fuel IH]; intros n depth files; [reflexivity|].
  rewrite walk_loop_step.
  - rewrite visit_loop_link.
    cbn [fs_stat fs_realpath loop_fs_unbounded]. rewrite Hunfold.
    change (fs_stat (fs_of_world 0 loop_world) ["r"]) with (Some SDir).
    change (fs_realpath (fs_of_world 0 loop_world) ["r"]) with (Some ["r"]).
    change (negb (startsWith (path_str ["r"]) (path_str ["r"]))) with false.
    cbv iota. apply IH.
  - cbn [fs_readdir loop_fs_unbounded]. rewrite Hunfold. reflexivity.
Qed.


(* ================================================================== *)
(** * Sorting with a consistent comparator *)
(* ================================================================== *)

Section SortFacts.
Variable rt : Runtime.
Hypothesis Hcmp : consistent_compare rt.
Variable A : Type.
Variable key : A -> string.

Let cmp (x y : A) : Z := localeCompare_base rt (key x) (key y).
Let le (x y : A) : Prop := (cmp x y <= 0)%Z.

Lemma cmp_flip (x y : A) : Z.sgn (cmp y x) = (- Z.sgn (cmp x y))%Z.
Proof. apply (proj1 Hcmp). Qed.

Lemma le_total (x y : A) : (0 < cmp x y)%Z -> le y x.
Proof.
  unfold le. intros H. pose proof (cmp_flip x y) as F.
  destruct (Z.sgn_spec (cmp x y)) as [[? E]|[[? E]|[? E]]];
    destruct (Z.sgn_spec (cmp y x)) as [[? E']|[[? E']|[? E']]]; lia.
Qed.

Lemma le_trans (x y z : A) : le x y -> le y z -> le x z.
Proof. apply (proj2 Hcmp). Qed.

Lemma le_both_zero (x y : A) : le x y -> le y x -> cmp x y = 0%Z.
Proof.
  unfold le. intros H1 H2. pose proof (cmp_flip x y) as F.
  destruct (Z.sgn_spec (cmp x y)) as [[? E]|[[? E]|[? E]]];
    destruct (Z.sgn_spec (cmp y x)) as [[? E']|[[? E']|[? E']]]; lia.
Qed.

Lemma cmp_zero_sym (x y : A) : cmp x y <> 0%Z -> cmp y x <> 0%Z.
Proof.
  intros H1 H2. pose proof (cmp_flip x y) as F.
  rewrite H2 in F. simpl in F. apply H1, Z.sgn_null_iff. lia.
Qed.

Lemma insert_by_sorted (x : A) (l : list A) :
  StronglySorted le l -> StronglySorted le (insert_by rt key x l).
Proof.
  induction l as [|y l IH]; intros Hs; simpl.
  - repeat constructor.
  - inversion Hs as [|? ? Hl Hy]; subst.
    destruct (Z.leb_spec (localeCompare_base rt (key x) (key y)) 0) as [Hxy|Hxy].
    + constructor; [exact Hs|]. constructor; [exact Hxy|].
      apply Forall_impl with (2 := Hy). intros z. apply le_trans, Hxy.
    + constructor; [apply IH, Hl|].
      apply (Permutation_Forall (Permutation_sym (insert_by_perm rt key x l))).
      constructor; [apply le_total, Hxy | exact Hy].
Qed.

Lemma sort_by_sorted (l : list A) : StronglySorted le (sort_by rt key l).
Proof.
  induction l as [|x l IH]; simpl; [constructor | apply insert_by_sorted, IH].
Qed.

(** No two elements have keys that compare equal. *)
Let distinct (l : list A) : Prop :=
  ForallOrdPairs (fun x y => cmp x y <> 0%Z) l.

Lemma distinct_perm (l l' : list A) :
  Permutation l l' -> distinct l -> distinct l'.
Proof.
  unfold distinct. induction 1 as [|x l l' Hp IH|x y l|l l' l'' _ IH1 _ IH2];
    intros Hd.
  - constructor.
  - inversion Hd as [|? ? Hx Hl]; subst.
    constructor; [apply (Permutation_Forall Hp), Hx | apply IH, Hl].
  - inversion Hd as [|? ? Hy Hl]; subst.
    inversion Hl as [|? ? Hx Hl']; subst.
    inversion Hy as [|? ? Hyx Hyl]; subst.
    constructor; [constructor; [apply cmp_zero_sym, Hyx | exact Hx]|].
    constructor; assumption.
  - apply IH2, IH1, Hd.
Qed.

Lemma pairwise_distinct_keys (l : list A) :
  pairwise_distinct rt (map key l) = true -> distinct l.
Proof.
  unfold distinct. induction l as [|x l IH]; simpl; intros H; constructor.
  - apply andb_true_iff in H as [H _]. rewrite forallb_forall in H.
    apply Forall_forall. intros y Hy.
    specialize (H (key y) (in_map key l y Hy)).
    apply negb_true_iff, Z.eqb_neq in H. exact H.
  - apply andb_true_iff in H as [_ H]. apply IH, H.
Qed.

(** Two sorted arrangements of the same elements are the same list when no
    two keys compare equal. *)
Lemma sorted_perm_unique (l1 : list A) :
  forall l2,
    StronglySorted le l1 -> StronglySorted le l2 ->
    Permutation l1 l2 -> distinct l1 -> l1 = l2.
Proof.
  induction l1 as [|a l1 IH]; intros l2 S1 S2 Hp Hd.
  - apply Permutation_nil in Hp. congruence.
  - destruct l2 as [|b l2];
      [apply Permutation_sym, Permutation_nil in Hp; discriminate|].
    inversion S1 as [|? ? S1' Ha]; subst.
    inversion S2 as [|? ? S2' Hb]; subst.
    inversion Hd as [|? ? Hda Hd']; subst.
    assert (Hab : a = b).
    { assert (Hina : In a (b :: l2))
        by (apply (Permutation_in a Hp); left; reflexivity).
      assert (Hinb : In b (a :: l1))
        by (apply (Permutation_in b (Permutation_sym Hp)); left; reflexivity).
      destruct Hina as [Hba | Hina]; [congruence|].
      destruct Hinb as [Hab | Hinb]; [exact Hab|].
      rewrite Forall_forall in Ha, Hb, Hda.
      exfalso. apply (Hda b Hinb).
      apply le_both_zero; [apply Ha, Hinb | apply Hb, Hina]. }
    subst b. f_equal.
    apply IH; try assumption. apply (Permutation_cons_inv Hp).
Qed.

(** The order in which the elements are handed to [sort] does not matter
    when no two keys compare equal. *)
Lemma sort_by_perm_unique (l1 l2 : list A) :
  Permutation l1 l2 ->
  pairwise_distinct rt (map key l2) = true ->
  sort_by rt key l1 = sort_by rt key l2.
Proof.
  intros Hp Hd.
  apply sorted_perm_unique; try apply sort_by_sorted.
  - rewrite !sort_by_perm. exact Hp.
  - apply (distinct_perm l2).
    + rewrite sort_by_perm. apply Permutation_sym, Hp.
    + apply pairwise_distinct_keys, Hd.
Qed.
End SortFacts.

Lemma sort_by_map (rt : Runtime) {A B : Type} (f : A -> B)
  (keyA : A -> string) (keyB : B -> string) (l : list A) :
  (forall x, keyB (f x) = keyA x) ->
  map f (sort_by rt keyA l) = sort_by rt keyB (map f l).
Proof.
  intros Hkey.
  assert (Hins : forall x l', map f (insert_by rt keyA x l')
                              = insert_by rt keyB (f x) (map f l')).
  { intros x l'. induction l' as [|y l' IH]; simpl; [reflexivity|].
    rewrite !Hkey.
    destruct (localeCompare_base rt (keyA x) (keyA y) <=? 0)%Z; simpl;
      [reflexivity | rewrite IH; reflexivity]. }
  induction l as [|x l IH]; simpl; [reflexivity|].
  rewrite Hins, IH. reflexivity.
Qed.

(** ** The comparison of [node_host] is consistent *)

Lemma ascii_compare_not_gt_trans (a b c : ascii) :
  Ascii.compare a b <> Gt -> Ascii.compare b c <> Gt ->
  Ascii.compare a c <> Gt.
Proof.
  unfold Ascii.compare. rewrite !N.compare_ngt_iff, !N.nlt_ge.
  intros H1 H2. exact (N.le_trans _ _ _ H1 H2).
Qed.

Lemma string_compare_not_gt_trans (a : string) :
  forall b c,
    String.compare a b <> Gt -> String.compare b c <> Gt ->
    String.compare a c <> Gt.
Proof.
  induction a as [|x a IH]; intros [|y b] [|z c]; simpl; try congruence.
  destruct (Ascii.compare x y) eqn:Exy; try congruence;
    destruct (Ascii.compare y z) eqn:Eyz; try congruence.
  - apply Ascii.compare_eq_iff in Exy, Eyz. subst.
    replace (Ascii.compare z z) with Eq; [apply IH|].
    symmetry. apply N.compare_refl.
  - apply Ascii.compare_eq_iff in Exy. subst. rewrite Eyz. congruence.
  - apply Ascii.compare_eq_iff in Eyz. subst. rewrite Exy. congruence.
  - intros _ _.
    assert (H : Ascii.compare x z <> Gt)
      by (apply (ascii_compare_not_gt_trans x y z); congruence).
    destruct (Ascii.compare x z) eqn:Exz; try congruence.
    apply Ascii.compare_eq_iff in Exz. subst.
    rewrite Ascii.compare_antisym, Exy in Eyz. discriminate.
Qed.

Lemma node_host_consistent : consistent_compare node_host.
Proof.
  split; simpl; unfold ascii_compare_base.
  - intros a b. rewrite (String.compare_antisym (toLowerCase b)).
    destruct (String.compare (toLowerCase a) (toLowerCase b)); reflexivity.
  - intros a b c H1 H2.
    pose proof (string_compare_not_gt_trans
                  (toLowerCase a) (toLowerCase b) (toLowerCase c)) as T.
    destruct (String.compare (toLowerCase a) (toLowerCase b));
      destruct (String.compare (toLowerCase b) (toLowerCase c));
      destruct (String.compare (toLowerCase a) (toLowerCase c));
      try lia; exfalso; apply T; congruence.
Qed.

(* ================================================================== *)
(** * [collectFiles] on a tree without links *)
(* ================================================================== *)

Lemma plain_tree_dir (rt : Runtime) (distinct : bool)
  (es : list (string * Node)) :
  plain_tree rt distinct (NDir es) = true ->
  Forall (fun e => valid_name (fst e) = true) es
  /\ (distinct = true -> pairwise_distinct rt (map fst es) = true)
  /\ Forall (fun e => plain_tree rt distinct (snd e) = true) es.
Proof.
  cbn [plain_tree]. intros H.
  apply andb_true_iff in H as [H Hall].
  apply andb_true_iff in H as [Hvalid Hdist].
  split; [|split].
  - rewrite forallb_forall in Hvalid. apply Forall_forall.
    intros e He. apply Hvalid, in_map, He.
  - intros ->. exact Hdist.
  - clear Hvalid Hdist.
    induction es as [|[nm c] es IH]; constructor;
      apply andb_true_iff in Hall as [Hc Hall]; [exact Hc | apply IH, Hall].
Qed.

Lemma presents_dir (fs : FileSystem) (dir : path) (es : list (string * Node)) :
  presents fs dir (NDir es) ->
  (exists listing, fs_readdir fs dir = Some listing
                   /\ Permutation listing (map dirent_of es))
  /\ Forall (fun e => presents fs (dir ++ [fst e]) (snd e)) es.
Proof.
  cbn [presents]. intros [Hread Hall]. split; [exact Hread|]. clear Hread.
  induction es as [|[nm c] es IH]; constructor;
    destruct Hall as [Hc Hall]; [exact Hc | apply IH, Hall].
Qed.

Lemma height_dir (es : list (string * Node)) :
  Forall (fun e => height (snd e) < height (NDir es)) es.
Proof.
  cbn [height]. apply Forall_forall. intros e He.
  induction es as [|[nm c] es IH]; [destruct He|].
  destruct He as [<- | He]; simpl; [lia|].
  specialize (IH He). simpl in IH. lia.
Qed.

Lemma enumerate_dir (rt : Runtime) (root rels : path)
  (es : list (string * Node)) :
  enumerate rt root rels (NDir es)
  = concat (map (fun e => enumerate rt root (rels ++ [fst e]) (snd e))
                (sort_by rt fst es)).
Proof.
  cbn [enumerate].
  match goal with
  | [ |- context [sort_by rt fst (?each es)] ] =>
      assert (Heach : each es
                = map (fun e => (fst e, enumerate rt root (rels ++ [fst e])
                                                  (snd e))) es)
  end.
  { induction es as [|[nm c] es IH]; [reflexivity|].
    simpl. f_equal. exact IH. }
  rewrite Heach.
  rewrite <- (sort_by_map rt
                (fun e => (fst e, enumerate rt root (rels ++ [fst e]) (snd e)))
                fst fst es) by reflexivity.
  rewrite map_map. reflexivity.
Qed.

Section Enumerates.
Variable rt : Runtime.
Variable fs : FileSystem.
Variable resolvedRoot : path.
Variable excludeRegexes : list (RegExp rt).
Variable maxDepth : jsnum.
Variable followSymlinks : bool.
Variable total : nat.
Hypothesis Hcmp : consistent_compare rt.
Hypothesis Hexclude : forall s, matchesAnyRegex rt s excludeRegexes = false.
Hypothesis Hdepth : forall d, d < total -> gt_num d maxDepth = false.

Let walk_ := walk rt fs resolvedRoot excludeRegexes maxDepth followSymlinks.
Let visit_ := visit rt fs resolvedRoot excludeRegexes followSymlinks.

(** What [walk] returns for the directory [NDir es] of the tree. *)
Let walks (fuel : nat) : Prop :=
  forall es rels depth files,
    Forall (fun s => valid_name s = true) rels ->
    plain_tree rt true (NDir es) = true ->
    presents fs (resolvedRoot ++ rels) (NDir es) ->
    height (NDir es) <= fuel ->
    depth + height (NDir es) <= total ->
    walk_ fuel (resolvedRoot ++ rels) depth files
    = Some (files ++ enumerate rt resolvedRoot rels (NDir es)).

Lemma visit_child (fuel : nat) (rels : path) (depth : nat)
  (e : string * Node) (files : list FileRef) :
  walks fuel ->
  Forall (fun s => valid_name s = true) rels ->
  valid_name (fst e) = true ->
  plain_tree rt true (snd e) = true ->
  presents fs ((resolvedRoot ++ rels) ++ [fst e]) (snd e) ->
  height (snd e) <= fuel ->
  S depth + height (snd e) <= total ->
  visit_ (walk_ fuel) (resolvedRoot ++ rels) depth (dirent_of e) files
  = Some (files ++ enumerate rt resolvedRoot (rels ++ [fst e]) (snd e)).
Proof.
  intros Hwalks Hrels Hnm Hplain Hpres Hh Hd.
  assert (Hall : Forall (fun s => valid_name s = true) (rels ++ [fst e]))
    by (apply Forall_app; split; [exact Hrels | repeat constructor; exact Hnm]).
  assert (Hne : rels ++ [fst e] <> []) by (destruct rels; discriminate).
  unfold visit_, visit. rewrite !Hexclude. cbn [orb name dirent_of].
  rewrite (path_join_valid _ _ Hnm), <- app_assoc.
  rewrite path_relative_below, (split_join _ Hne Hall).
  destruct e as [nm [content|es|target]]; cbn [kind snd fst] in *.
  - reflexivity.
  - rewrite <- app_assoc in Hpres. apply Hwalks; assumption.
  - discriminate.
Qed.

Lemma for_of_children (fuel : nat) (rels : path) (depth : nat)
  (children : list (string * Node)) :
  walks fuel ->
  Forall (fun s => valid_name s = true) rels ->
  Forall (fun e => valid_name (fst e) = true
                   /\ plain_tree rt true (snd e) = true
                   /\ presents fs ((resolvedRoot ++ rels) ++ [fst e]) (snd e)
                   /\ height (snd e) <= fuel
                   /\ S depth + height (snd e) <= total) children ->
  forall files,
    for_of (visit_ (walk_ fuel) (resolvedRoot ++ rels) depth)
           (map dirent_of children) files
    = Some (files
            ++ concat (map (fun e => enumerate rt resolvedRoot
                                       (rels ++ [fst e]) (snd e)) children)).
Proof.
  intros Hwalks Hrels.
  induction children as [|e children IH]; intros Hall files; simpl.
  - rewrite app_nil_r. reflexivity.
  - inversion Hall as [|? ? (Hnm & Hplain & Hpres & Hh & Hd) Hrest]; subst.
    rewrite (visit_child fuel rels depth e files) by assumption.
    rewrite (IH Hrest), <- app_assoc. reflexivity.
Qed.

Lemma walk_enumerates (fuel : nat) : walks fuel.
Proof.
  induction fuel as [|fuel IH];
    intros es rels depth files Hrels Hplain Hpres Hfuel Htotal;
    [cbn [height] in Hfuel; lia|].
  destruct (plain_tree_dir rt true es Hplain) as (Hvalid & Hdist & Hsub).
  destruct (presents_dir fs _ es Hpres) as ((listing & Hread & Hperm) & Hshow).
  pose proof (height_dir es) as Hlow.
  unfold walk_. cbn [walk]. fold walk_. fold visit_.
  rewrite Hdepth by (cbn [height] in Htotal; lia).
  rewrite Hread.
  assert (Hkeys : map name (map dirent_of es) = map fst es)
    by (rewrite map_map; reflexivity).
  rewrite (sort_by_perm_unique rt Hcmp Dirent name listing
             (map dirent_of es) Hperm)
    by (rewrite Hkeys; apply Hdist; reflexivity).
  rewrite <- (sort_by_map rt dirent_of fst name es) by reflexivity.
  rewrite enumerate_dir.
  apply for_of_children; [exact IH | exact Hrels |].
  apply (Permutation_Forall (Permutation_sym (sort_by_perm rt fst es))).
  rewrite Forall_forall in Hvalid, Hsub, Hshow, Hlow |- *.
  intros e He.
  specialize (Hvalid e He). specialize (Hsub e He).
  specialize (Hshow e He). specialize (Hlow e He).
  repeat split; try assumption; lia.
Qed.
End Enumerates.




(* ================================================================== *)
(** * [hasBOM] and [isLikelyBinary] *)
(* ================================================================== *)

Ltac split_eqb E :=
  repeat match type of E with
         | context [Byte.eqb ?a ?b] =>
             let H := fresh "Heq" in
             destruct (Byte.eqb a b) eqn:H;
             [apply Byte.byte_dec_bl in H; try subst a|];
             cbn [andb] in E
         end.

(** X1.  [hasBOM] returns a mark exactly when the buffer starts with one:
    the kind it returns is a mark the buffer starts with, [bomLength] is
    the length of that mark, and no longer mark fits (a buffer that starts
    with [FF FE 00 00] is UTF-32, not UTF-16); when it returns [null] the
    buffer starts with none of the five marks. *)
Theorem hasBOM_recognises_the_marks (buffer : list byte) :
  match hasBOM buffer with
  | Some b =>
      bomLength b = List.length (bom_bytes (bom_kind b))
      /\ firstn (bomLength b) buffer = bom_bytes (bom_kind b)
      /\ forall k, firstn (List.length (bom_bytes k)) buffer = bom_bytes k ->
                   List.length (bom_bytes k) <= bomLength b
  | None =>
      forall k, firstn (List.length (bom_bytes k)) buffer <> bom_bytes k
  end.
Proof.
  destruct (hasBOM buffer) as [b|] eqn:E.
  - split; [|split].
    + destruct buffer as [|b0 [|b1 [|b2 [|b3 rest]]]];
        unfold hasBOM, byte_is in E; cbn in E; try discriminate;
        split_eqb E; try discriminate; injection E as <-; reflexivity.
    + destruct buffer as [|b0 [|b1 [|b2 [|b3 rest]]]];
        unfold hasBOM, byte_is in E; cbn in E; try discriminate;
        split_eqb E; try discriminate; injection E as <-; reflexivity.
    + intros k Hk.
      destruct buffer as [|b0 [|b1 [|b2 [|b3 rest]]]]; destruct k;
        cbn in Hk; try discriminate;
        injection Hk; intros; subst;
        unfold hasBOM, byte_is in E; cbn in E; try discriminate;
        split_eqb E; try discriminate; injection E as <-; simpl; lia.
  - intros k Hk.
    destruct buffer as [|b0 [|b1 [|b2 [|b3 rest]]]]; destruct k;
      cbn in Hk; try discriminate;
      injection Hk; intros; subst;
      unfold hasBOM, byte_is in E; cbn in E;
      try discriminate;
      split_eqb E; discriminate.
Qed.

(** X2.  [isLikelyBinary] answers [true] exactly for the buffers that hold
    a NUL byte; the empty buffer is not binary. *)
Theorem isLikelyBinary_iff_nul (buffer : list byte) :
  isLikelyBinary buffer = true <-> In x00 buffer.
Proof. apply isLikelyBinary_spec. Qed.

(* ================================================================== *)
(** * [fenceFor]: the fence and the content *)
(* ================================================================== *)

Lemma longest_run_from_ticks (n : nat) :
  forall cur best rest,
    cur + n <= longest_run_from cur best (repeat_str "`" n ++ rest).
Proof.
  induction n as [|n IH]; intros cur best rest.
  - simpl. rewrite Nat.add_0_r. apply longest_run_from_ge.
  - simpl. specialize (IH (S cur) best rest). lia.
Qed.

(** A run of [n] backticks somewhere in the content makes the longest run
    at least [n]. *)
Lemma longest_run_from_occurs (n : nat) (before after : string) :
  forall cur best,
    n <= longest_run_from cur best (before ++ repeat_str "`" n ++ after).
Proof.
  induction before as [|c before IH]; intros cur best.
  - simpl. pose proof (longest_run_from_ticks n cur best after). lia.
  - simpl. destruct (Ascii.eqb c backtick); apply IH.
Qed.

(** X3.  The fence is longer than every run of backticks of the content
    it wraps, wherever the run stands, so the fence does not occur in the
    content and no line of it can close the block. *)
Theorem fenceFor_longer_than_every_run
  (content before after : string) (n : nat) :
  content = (before ++ repeat_str "`" n ++ after)%string ->
  n < String.length (fenceFor content).
Proof.
  intros H.
  pose proof (fenceFor_length content) as Hlen.
  pose proof (longest_run_from_occurs n before after 0 0) as Hocc.
  rewrite <- H in Hocc. fold (longest_backtick_run content) in Hocc.
  destruct (longest_backtick_run content =? 0)%nat eqn:Z.
  - apply Nat.eqb_eq in Z. lia.
  - lia.
Qed.

Lemma fenceFor_longer_than_every_run_witness :
  2 < String.length (fenceFor "a``b`c").
Proof.
  apply (fenceFor_longer_than_every_run "a``b`c" "a" "b`c" 2). reflexivity.
Defined.

Lemma fenceFor_does_not_occur_in_content (content : string) :
  ~ occurs_in (fenceFor content) content.
Proof.
  intros (before & after & H).
  assert (H' : content
               = (before ++ repeat_str "`" (String.length (fenceFor content))
                  ++ after)%string)
    by (rewrite <- fenceFor_backticks; exact H).
  apply fenceFor_longer_than_every_run in H'. lia.
Qed.

(* ================================================================== *)
(** * [getLangForFile]: which entry of the table applies *)
(* ================================================================== *)

Lemma basename_last_portion (dir nm : string) :
  dir = "" \/ (exists d, dir = (d ++ "/")%string) ->
  nm <> "" ->
  string_forallb (fun c => negb (Ascii.eqb c "/")) nm = true ->
  basename (dir ++ nm) = nm.
Proof.
  intros Hdir Hne Hnm. unfold basename.
  destruct Hdir as [-> | [d ->]].
  - simpl append. rewrite (split_on_no_sep _ _ Hnm).
    apply (last_filter_snoc []), Hne.
  - rewrite append_assoc. simpl append.
    rewrite split_on_app, (split_on_no_sep _ _ Hnm).
    apply last_filter_snoc, Hne.
Qed.

Lemma string_forallb_app (f : ascii -> bool) (a b : string) :
  string_forallb f (a ++ b) = string_forallb f a && string_forallb f b.
Proof. induction a as [|c a IH]; simpl; [reflexivity|]. rewrite IH. apply andb_assoc. Qed.

Lemma last_dot_after (stem ext : string) :
  last_dot ext = None ->
  last_dot (stem ++ String "." ext) = Some (String "." ext).
Proof.
  intros Hext. induction stem as [|c stem IH]; simpl.
  - rewrite Hext. reflexivity.
  - rewrite IH. reflexivity.
Qed.

Lemma last_dot_shape (s e : string) :
  last_dot s = Some e -> exists e', e = String "." e' /\ last_dot e' = None.
Proof.
  revert e. induction s as [|c s IH]; intros e; simpl; [discriminate|].
  destruct (last_dot s) as [e0|] eqn:E.
  - intros [= <-]. apply IH. reflexivity.
  - destruct (Ascii.eqb c ".") eqn:Ec; [|discriminate].
    apply Ascii.eqb_eq in Ec. subst c. intros [= <-]. exists s. auto.
Qed.

Lemma lower_ascii_dot (c : ascii) :
  Ascii.eqb (lower_ascii c) "." = Ascii.eqb c ".".
Proof. destruct c as [[] [] [] [] [] [] [] []]; reflexivity. Qed.

Lemma last_dot_toLowerCase (s : string) :
  last_dot s = None -> last_dot (toLowerCase s) = None.
Proof.
  induction s as [|c s IH]; simpl; [reflexivity|].
  destruct (last_dot s); [discriminate|].
  rewrite lower_ascii_dot, IH by reflexivity.
  destruct (Ascii.eqb c "."); [discriminate | reflexivity].
Qed.

(** The extension is empty, or a dot followed by text without a dot. *)
Lemma extname_shape (p : string) :
  extname p = "" \/ exists e, extname p = String "." e /\ last_dot e = None.
Proof.
  unfold extname. destruct (basename p) as [|c0 b]; [left; reflexivity|].
  destruct (last_dot b) as [e|] eqn:E; [|left; reflexivity].
  destruct (String.eqb (String c0 b) ".."); [left; reflexivity|].
  right. apply last_dot_shape in E. exact E.
Qed.



(** X5.  A file name without a dot has no extension and gets the empty
    tag: [Makefile] and [Dockerfile] are not tagged by the entries
    [.makefile] and [.dockerfile]. *)
Theorem getLangForFile_name_without_dot_untagged (dir nm : string) :
  dir = "" \/ (exists d, dir = (d ++ "/")%string) ->
  nm <> "" ->
  string_forallb (fun c => negb (Ascii.eqb c ".") && negb (Ascii.eqb c "/")) nm
  = true ->
  getLangForFile (dir ++ nm) = ""
  /\ own_property ".makefile" EXT_TO_LANG = Some "makefile"
  /\ own_property ".dockerfile" EXT_TO_LANG = Some "dockerfile".
Proof.
  intros Hdir Hne Hnm. split; [|split; reflexivity].
  unfold getLangForFile, extname.
  rewrite basename_last_portion; try assumption.
  - destruct nm as [|c nm]; [congruence|].
    simpl in Hnm. apply andb_true_iff in Hnm as [_ Hnm].
    rewrite (last_dot_none _ Hnm). reflexivity.
  - apply no_dot_no_sep, Hnm.
Qed.

Lemma getLangForFile_name_without_dot_untagged_witness :
  getLangForFile "/r/Makefile" = "" /\ getLangForFile "Dockerfile" = "".
Proof.
  split.
  - apply (getLangForFile_name_without_dot_untagged "/r/" "Makefile");
      [right; exists "/r"; reflexivity | discriminate | reflexivity].
  - apply (getLangForFile_name_without_dot_untagged "" "Dockerfile");
      [left; reflexivity | discriminate | reflexivity].
Defined.

(** X6.  The key a path is looked up under is empty or a dot followed by
    text without a dot, so the entry [.dockerfile.*] of the table applies
    to no path. *)
Theorem getLangForFile_never_uses_the_wildcard_entry (filePath : string) :
  toLowerCase (extname filePath) <> ".dockerfile.*"
  /\ own_property ".dockerfile.*" EXT_TO_LANG = Some "dockerfile".
Proof.
  split; [|reflexivity].
  destruct (extname_shape filePath) as [-> | (e & -> & He)]; [discriminate|].
  intros H. apply last_dot_toLowerCase in He.
  cbn [toLowerCase] in H. injection H as H. rewrite H in He. discriminate.
Qed.

(* ================================================================== *)
(** * [parseArgs]: the [--key=value] forms *)
(* ================================================================== *)

Lemma after_equals_key (key v : string) :
  string_forallb (fun c => negb (Ascii.eqb c "=")) key = true ->
  after_equals (key ++ String "=" v) = Some (hd "" (split_on "=" v)).
Proof.
  intros Hkey. unfold after_equals.
  rewrite split_on_app, (split_on_no_sep _ _ Hkey). simpl.
  pose proof (split_on_not_nil "=" v).
  destruct (split_on "=" v); [congruence | reflexivity].
Qed.

(** X7.  [--input=v], [--exclude=v] and [--output=v] set the option to the
    part of [v] before its first [=] sign (all of [v] when it has none, and
    then the form is the same as [--input v]): [--exclude=a=b] excludes
    [a], what follows the second [=] is dropped. *)
Theorem parseArgs_key_value_stops_at_equals
  (args : Args) (v : string) (rest : list string) :
  parse_loop args (("--input=" ++ v)%string :: rest)
  = parse_loop (set_input args (Some (hd "" (split_on "=" v)))) rest
  /\ parse_loop args (("--exclude=" ++ v)%string :: rest)
     = parse_loop (set_exclude args (Some (hd "" (split_on "=" v)))) rest
  /\ parse_loop args (("--output=" ++ v)%string :: rest)
     = parse_loop (set_output args (Some (hd "" (split_on "=" v)))) rest
  /\ (string_forallb (fun c => negb (Ascii.eqb c "=")) v = true ->
      hd "" (split_on "=" v) = v
      /\ parse_loop args (("--input=" ++ v)%string :: rest)
         = parse_loop args ("--input" :: v :: rest)).
Proof.
  set (value := hd "" (split_on "=" v)).
  assert (Hi : after_equals ("--input=" ++ v) = Some value)
    by (apply (after_equals_key "--input" v); reflexivity).
  assert (He : after_equals ("--exclude=" ++ v) = Some value)
    by (apply (after_equals_key "--exclude" v); reflexivity).
  assert (Ho : after_equals ("--output=" ++ v) = Some value)
    by (apply (after_equals_key "--output" v); reflexivity).
  assert (H1 : parse_loop args (("--input=" ++ v)%string :: rest)
               = parse_loop (set_input args (Some value)) rest).
  { cbn [parse_loop]. simpl String.eqb. cbn [orb].
    unfold parse_key_value. rewrite Hi. unfold startsWith. simpl.
    replace (String.prefix "" v) with true by (destruct v; reflexivity).
    reflexivity. }
  split; [exact H1|]. split; [|split].
  - cbn [parse_loop]. simpl String.eqb. cbn [orb].
    unfold parse_key_value. rewrite He. unfold startsWith. simpl.
    replace (String.prefix "" v) with true by (destruct v; reflexivity).
    reflexivity.
  - cbn [parse_loop]. simpl String.eqb. cbn [orb].
    unfold parse_key_value. rewrite Ho. unfold startsWith. simpl.
    replace (String.prefix "" v) with true by (destruct v; reflexivity).
    reflexivity.
  - intros Hv.
    assert (Hval : value = v)
      by (unfold value; rewrite (split_on_no_sep _ _ Hv); reflexivity).
    split; [exact Hval|]. rewrite H1, Hval. reflexivity.
Qed.

(* ================================================================== *)
(** * [compileExcludeRegexes]: the patterns *)
(* ================================================================== *)

Lemma split_on_elements (c : ascii) (s x : string) :
  In x (split_on c s) ->
  string_forallb (fun a => negb (Ascii.eqb a c)) x = true.
Proof.
  revert x. induction s as [|a s IH]; intros x; simpl.
  - intros [<- | []]. reflexivity.
  - destruct (Ascii.eqb a c) eqn:E.
    + intros [<- | H]; [reflexivity | apply IH, H].
    + pose proof (split_on_not_nil c s) as Hn.
      destruct (split_on c s) as [|y ys]; [congruence|].
      intros [<- | H].
      * simpl. rewrite E. simpl. apply IH. left. reflexivity.
      * apply IH. right. exact H.
Qed.

Lemma trim_start_forallb (f : ascii -> bool) (s : string) :
  string_forallb f s = true -> string_forallb f (trim_start s) = true.
Proof.
  induction s as [|c s IH]; simpl; [auto|]. intros H.
  destruct (is_space c); [|exact H].
  apply andb_true_iff in H as [_ H]. apply IH, H.
Qed.

Lemma trim_end_forallb (f : ascii -> bool) (s : string) :
  string_forallb f s = true -> string_forallb f (trim_end s) = true.
Proof.
  induction s as [|c s IH]; simpl; [auto|]. intros H.
  apply andb_true_iff in H as [Hc H]. specialize (IH H).
  destruct (trim_end s); [destruct (is_space c)|]; simpl in *;
    rewrite ?Hc; auto.
Qed.

Lemma trim_end_idempotent (s : string) : trim_end (trim_end s) = trim_end s.
Proof.
  induction s as [|c s IH]; simpl; [reflexivity|].
  destruct (trim_end s) as [|d t] eqn:E.
  - destruct (is_space c) eqn:Ec; simpl; [reflexivity|]. rewrite Ec. reflexivity.
  -
    change (trim_end (String c (String d t)))
      with (match trim_end (String d t) with
            | EmptyString =>
                if is_space c then EmptyString else String c EmptyString
            | String a u => String c (String a u)
            end).
    rewrite IH. reflexivity.
Qed.

Lemma trim_start_clean (s : string) : starts_clean (trim_start s).
Proof.
  induction s as [|c s IH]; simpl; [exact I|].
  destruct (is_space c) eqn:E; [exact IH | exact E].
Qed.

Lemma trim_end_clean (s : string) :
  starts_clean s -> starts_clean (trim_end s) /\ trim_start (trim_end s) = trim_end s.
Proof.
  destruct s as [|c s]; simpl; [auto|]. intros Hc.
  destruct (trim_end s); rewrite ?Hc; simpl; rewrite ?Hc; auto.
Qed.

Lemma trim_idempotent (s : string) : trim (trim s) = trim s.
Proof.
  unfold trim.
  destruct (trim_end_clean (trim_start s) (trim_start_clean s)) as [_ H].
  rewrite H. apply trim_end_idempotent.
Qed.



Lemma map_throwing_all {A B : Type} (f : A -> option B) (l : list A) :
  (forall x, In x l -> exists y, f x = Some y) ->
  exists ys, map_throwing f l = Some ys
             /\ Forall2 (fun x y => f x = Some y) l ys.
Proof.
  induction l as [|x l IH]; intros H; simpl.
  - exists []. split; [reflexivity | constructor].
  - destruct (H x (or_introl eq_refl)) as [y Hy].
    destruct IH as (ys & Hys & Hall); [intros z Hz; apply H; right; exact Hz|].
    rewrite Hy, Hys. exists (y :: ys). split; [reflexivity|].
    constructor; assumption.
Qed.



(* ================================================================== *)
(** * [collectFiles]: why a file is in the list *)
(* ================================================================== *)

Section JustifiedFacts.
Variable rt : Runtime.
Variable fs : FileSystem.
Variable root : path.
Variable excludeRegexes : list (RegExp rt).
Variable maxDepth : jsnum.
Variable followSymlinks : bool.
Hypothesis Hnames : names_ok fs.

Let walk_ := walk rt fs root excludeRegexes maxDepth followSymlinks.
Let visit_ := visit rt fs root excludeRegexes followSymlinks.
Let visited_ := visited rt fs root excludeRegexes maxDepth followSymlinks.
Let justified_ := justified rt fs root excludeRegexes maxDepth followSymlinks.
Let listed_ := listed fs root maxDepth.

Let keeps (w : path -> nat -> list FileRef -> option (list FileRef)) : Prop :=
  forall ds files files',
    visited_ ds ->
    Forall justified_ files ->
    w (root ++ ds) (List.length ds) files = Some files' ->
    Forall justified_ files'.

Lemma visit_justified
  (w : path -> nat -> list FileRef -> option (list FileRef))
  (ds : list string) (ent : Dirent) (files files' : list FileRef) :
  keeps w ->
  visited_ ds ->
  listed_ ds ent ->
  valid_name (name ent) = true ->
  Forall justified_ files ->
  visit_ w (root ++ ds) (List.length ds) ent files = Some files' ->
  Forall justified_ files'.
Proof.
  intros Hw Hds Hlisted Hnm Hfiles.
  unfold visit_, visit.
  rewrite (path_join_valid _ _ Hnm), <- app_assoc.
  rewrite path_relative_below, split_join;
    [| destruct ds; discriminate
     | apply Forall_app; split; [|repeat constructor; exact Hnm]].
  2: { clear - Hds. induction Hds as [|ds ent' _ IH _ Hv _ _];
         [constructor|].
       apply Forall_app. split; [exact IH | repeat constructor; exact Hv]. }
  destruct (matchesAnyRegex rt (join "/" (ds ++ [name ent])) excludeRegexes
            || matchesAnyRegex rt (path_str (root ++ ds ++ [name ent]))
                 excludeRegexes) eqn:Ex;
    [intros [= <-]; exact Hfiles|].
  apply orb_false_elim in Ex.
  assert (Hdepth : S (List.length ds) = List.length (ds ++ [name ent]))
    by (rewrite length_app; simpl; lia).
  assert (Hpush : forall t,
            taken fs followSymlinks ent (root ++ ds ++ [name ent]) -> t = files ++
              [{| full := root ++ ds ++ [name ent];
                  rel := join "/" (ds ++ [name ent]) |}] ->
            Forall justified_ t).
  { intros t Ht ->. apply Forall_app. split; [exact Hfiles|].
    repeat constructor. exists ds, ent.
    split; [exact Hds|]. split; [exact Hlisted|]. split; [exact Hnm|].
    split; [exact Ex|]. split; [exact Ht | reflexivity]. }
  assert (Henter : entered fs root followSymlinks ent (root ++ ds ++ [name ent]) ->
            w (root ++ ds ++ [name ent]) (S (List.length ds)) files
            = Some files' ->
            Forall justified_ files').
  { intros He. rewrite Hdepth. apply Hw; [|exact Hfiles].
    apply visited_entry; assumption. }
  destruct (kind ent) eqn:Ek.
  - apply Henter. left. exact Ek.
  - intros [= <-]. apply (Hpush _ (or_introl Ek) eq_refl).
  - destruct followSymlinks eqn:Ef; [|intros [= <-]; exact Hfiles].
    destruct (fs_stat fs _) as [[| |]|] eqn:Es;
      try (intros [= <-]; exact Hfiles).
    + destruct (fs_realpath fs _) as [real|] eqn:Er;
        [|intros [= <-]; exact Hfiles].
      destruct (startsWith (path_str real) (path_str root)) eqn:Ep;
        [|intros [= <-]; exact Hfiles].
      apply Henter. right. repeat split; try assumption.
      exists real. split; assumption.
    + intros [= <-]. apply (Hpush _); [|reflexivity].
      right. repeat split; assumption.
  - intros [= <-]. exact Hfiles.
Qed.

Lemma walk_justified (fuel : nat) : keeps (walk_ fuel).
Proof.
  induction fuel as [|fuel IH]; intros ds files files' Hds Hfiles;
    [discriminate|].
  unfold walk_. cbn [walk]. fold (walk_ fuel). fold visit_.
  destruct (gt_num (List.length ds) maxDepth) eqn:Eg;
    [intros [= <-]; exact Hfiles|].
  destruct (fs_readdir fs (root ++ ds)) as [entries|] eqn:E;
    [|intros [= <-]; exact Hfiles].
  apply (for_of_invariant (Forall justified_)
           (fun e => In e entries /\ valid_name (name e) = true));
    [| |exact Hfiles].
  - intros e s s' [Hin He] Hs.
    apply (visit_justified _ _ _ _ _ IH Hds); try assumption.
    split; [exact Eg|]. exists entries. split; [exact E | exact Hin].
  - apply Forall_forall. intros e He.
    apply (Permutation_in e (sort_by_perm rt name entries)) in He.
    split; [exact He|].
    pose proof (Hnames _ _ E) as Hv. rewrite Forall_forall in Hv.
    apply Hv, He.
Qed.

Lemma visited_valid (ds : list string) :
  visited_ ds -> Forall (fun s => valid_name s = true) ds.
Proof.
  induction 1 as [|ds ent _ IH _ Hv _ _]; [constructor|].
  apply Forall_app. split; [exact IH | repeat constructor; exact Hv].
Qed.

Lemma visited_unexcluded (ds : list string) :
  visited_ ds ->
  forall k, 0 < k <= List.length ds ->
            unexcluded rt root excludeRegexes (firstn k ds).
Proof.
  induction 1 as [|ds ent _ IH _ _ Hun _]; intros k Hk.
  - simpl in Hk. lia.
  - rewrite length_app in Hk. simpl in Hk.
    destruct (Nat.eq_dec k (List.length ds + 1)) as [-> | Hne].
    + rewrite firstn_all2 by (rewrite length_app; simpl; lia). exact Hun.
    + rewrite firstn_app.
      replace (k - List.length ds) with 0 by lia.
      rewrite firstn_O, app_nil_r. apply IH. lia.
Qed.

Lemma justified_segments (f : FileRef) :
  justified_ f ->
  exists ds ent,
    rel_segments f = ds ++ [name ent]
    /\ full f = root ++ rel_segments f
    /\ visited_ ds /\ listed_ ds ent
    /\ unexcluded rt root excludeRegexes (ds ++ [name ent])
    /\ taken fs followSymlinks ent (root ++ ds ++ [name ent]).
Proof.
  intros (ds & ent & Hds & Hl & Hv & Hun & Ht & ->).
  exists ds, ent. unfold rel_segments. cbn [rel full].
  rewrite split_join;
    [| destruct ds; discriminate
     | apply Forall_app; split;
       [apply visited_valid, Hds | repeat constructor; exact Hv]].
  split; [reflexivity|]. split; [reflexivity|]. split; [exact Hds|].
  split; [exact Hl|]. split; [exact Hun | exact Ht].
Qed.
End JustifiedFacts.

Lemma collectFiles_justified
  (rt : Runtime) (fs : FileSystem) (cwd : path) (fuel : nat) (root : string)
  (excludeRegexes : list (RegExp rt)) (maxDepth : jsnum)
  (followSymlinks : bool) (files : list FileRef) :
  names_ok fs ->
  collectFiles rt fs cwd fuel root excludeRegexes maxDepth followSymlinks
  = Some files ->
  Forall (justified rt fs (path_resolve cwd root) excludeRegexes maxDepth
            followSymlinks) files.
Proof.
  intros Hnames Hrun.
  apply (walk_justified rt fs (path_resolve cwd root) excludeRegexes maxDepth
           followSymlinks Hnames fuel [] [] files).
  - constructor.
  - constructor.
  - rewrite app_nil_r. exact Hrun.
Qed.

(** X10.  Exclusion prunes whole subtrees: for every file that
    [collectFiles] returns, neither the file nor any directory on the way
    from the root to it matches an exclude pattern, be it by its relative
    or by its absolute path. *)
Theorem collectFiles_returns_nothing_below_an_excluded_entry
  (rt : Runtime) (fs : FileSystem) (cwd : path) (fuel : nat) (root : string)
  (excludeRegexes : list (RegExp rt)) (maxDepth : jsnum)
  (followSymlinks : bool) (files : list FileRef) :
  names_ok fs ->
  collectFiles rt fs cwd fuel root excludeRegexes maxDepth followSymlinks
  = Some files ->
  forall f k,
    In f files -> 0 < k <= List.length (rel_segments f) ->
    matchesAnyRegex rt (join "/" (firstn k (rel_segments f))) excludeRegexes
    = false
    /\ matchesAnyRegex rt
         (path_str (path_resolve cwd root ++ firstn k (rel_segments f)))
         excludeRegexes = false.
Proof.
  intros Hnames Hrun f k Hf Hk.
  pose proof (collectFiles_justified _ _ _ _ _ _ _ _ _ Hnames Hrun) as H.
  rewrite Forall_forall in H.
  destruct (justified_segments _ _ _ _ _ _ f (H f Hf))
    as (ds & ent & Hsegs & _ & Hds & _ & Hun & _).
  rewrite Hsegs in Hk |- *. rewrite length_app in Hk. simpl in Hk.
  destruct (Nat.eq_dec k (List.length ds + 1)) as [-> | Hne].
  - rewrite firstn_all2 by (rewrite length_app; simpl; lia). exact Hun.
  - rewrite firstn_app.
    replace (k - List.length ds) with 0 by lia.
    rewrite firstn_O, app_nil_r.
    apply (visited_unexcluded _ _ _ _ _ _ ds Hds). lia.
Qed.

Lemma collectFiles_returns_nothing_below_an_excluded_entry_witness :
  let rules := match re_compile "a\.py" with Some r => [r] | None => [] end in
  matchesAnyRegex node_host "sub" rules = false
  /\ matchesAnyRegex node_host "/r/sub" rules = false.
Proof.
  apply (collectFiles_returns_nothing_below_an_excluded_entry node_host
           scenario_fs cwd0 10 "/r"
           (match re_compile "a\.py" with Some r => [r] | None => [] end)
           JInf false
           [{| full := ["r"; "b.bin"]; rel := "b.bin" |};
            {| full := ["r"; "sub"; "c.go"]; rel := "sub/c.go" |}]
           (fs_of_world_names_ok MAXSYMLINKS scenario_world eq_refl) eq_refl
           {| full := ["r"; "sub"; "c.go"]; rel := "sub/c.go" |} 1).
  - right. left. reflexivity.
  - simpl. lia.
Defined.

(** X11.  With a finite [maxDepth] no returned file lies deeper than the
    bound: a file [maxDepth] directories below the root is the deepest that
    can be returned, so its relative path has at most [maxDepth + 1]
    segments. *)
Theorem collectFiles_respects_maxDepth
  (rt : Runtime) (fs : FileSystem) (cwd : path) (fuel : nat) (root : string)
  (excludeRegexes : list (RegExp rt)) (bound : Z)
  (followSymlinks : bool) (files : list FileRef) :
  names_ok fs ->
  collectFiles rt fs cwd fuel root excludeRegexes (JFin bound) followSymlinks
  = Some files ->
  forall f, In f files ->
            (Z.of_nat (List.length (rel_segments f)) <= bound + 1)%Z.
Proof.
  intros Hnames Hrun f Hf.
  pose proof (collectFiles_justified _ _ _ _ _ _ _ _ _ Hnames Hrun) as H.
  rewrite Forall_forall in H.
  destruct (justified_segments _ _ _ _ _ _ f (H f Hf))
    as (ds & ent & Hsegs & _ & _ & [Hgt _] & _).
  rewrite Hsegs, length_app. simpl in *.
  apply Z.ltb_ge in Hgt. lia.
Qed.

Lemma collectFiles_respects_maxDepth_witness :
  (Z.of_nat (List.length
               (rel_segments {| full := ["r"; "sub"; "c.go"];
                                rel := "sub/c.go" |})) <= 1 + 1)%Z.
Proof.
  apply (collectFiles_respects_maxDepth node_host depth_fs cwd0 10 "/r" []
           1%Z false
           [{| full := ["r"; "a.py"]; rel := "a.py" |};
            {| full := ["r"; "sub"; "c.go"]; rel := "sub/c.go" |}]
           (fs_of_world_names_ok MAXSYMLINKS depth_world eq_refl) eq_refl).
  right. left. reflexivity.
Defined.

(** X12.  Without [followSymlinks] (the only way [main] calls it)
    [collectFiles] returns nothing but entries that their directory lists
    as regular files: symbolic links and other kinds of entries are left
    out, and [stat] and [realpath] are not consulted. *)
Theorem collectFiles_without_links_returns_regular_files
  (rt : Runtime) (fs : FileSystem) (cwd : path) (fuel : nat) (root : string)
  (excludeRegexes : list (RegExp rt)) (maxDepth : jsnum)
  (files : list FileRef) :
  names_ok fs ->
  collectFiles rt fs cwd fuel root excludeRegexes maxDepth false
  = Some files ->
  forall f, In f files ->
    exists dir entries ent,
      fs_readdir fs dir = Some entries
      /\ In ent entries
      /\ kind ent = KFile
      /\ full f = path_join dir (name ent).
Proof.
  intros Hnames Hrun f Hf.
  pose proof (collectFiles_justified _ _ _ _ _ _ _ _ _ Hnames Hrun) as H.
  rewrite Forall_forall in H.
  destruct (H f Hf) as (ds & ent & _ & [_ (es & Hes & Hin)] & Hv & _ & Ht & ->).
  exists (path_resolve cwd root ++ ds), es, ent.
  split; [exact Hes|]. split; [exact Hin|]. split.
  - destruct Ht as [Hk | (_ & Hfalse & _)]; [exact Hk | discriminate].
  - rewrite (path_join_valid _ _ Hv), <- app_assoc. reflexivity.
Qed.

Lemma collectFiles_without_links_returns_regular_files_witness :
  exists dir entries ent,
    fs_readdir prefix_fs dir = Some entries
    /\ In ent entries
    /\ kind ent = KFile
    /\ full {| full := ["data"; "a.txt"]; rel := "a.txt" |}
       = path_join dir (name ent).
Proof.
  apply (collectFiles_without_links_returns_regular_files node_host
           prefix_fs cwd0 10 "/data" [] JInf
           [{| full := ["data"; "a.txt"]; rel := "a.txt" |}]
           (fs_of_world_names_ok MAXSYMLINKS prefix_world eq_refl) eq_refl).
  left. reflexivity.
Defined.

(* ================================================================== *)
(** * [collectFiles]: edge cases of the depth bound and of the root *)
(* ================================================================== *)

Lemma walk_NaN_is_unbounded (rt : Runtime) (fs : FileSystem) (root : path)
  (excludeRegexes : list (RegExp rt)) (followSymlinks : bool) (fuel : nat) :
  forall dir depth files,
    walk rt fs root excludeRegexes JNaN followSymlinks fuel dir depth files
    = walk rt fs root excludeRegexes JInf followSymlinks fuel dir depth files.
Proof.
  induction fuel as [|fuel IH]; intros dir depth files; [reflexivity|].
  cbn [walk gt_num]. destruct (fs_readdir fs dir) as [entries|]; [|reflexivity].
  generalize (sort_by rt name entries). intros l. revert files.
  induction l as [|e l IHl]; intros files; [reflexivity|].
  cbn [for_of].
  assert (Hv : visit rt fs root excludeRegexes followSymlinks
                 (walk rt fs root excludeRegexes JNaN followSymlinks fuel)
                 dir depth e files
               = visit rt fs root excludeRegexes followSymlinks
                   (walk rt fs root excludeRegexes JInf followSymlinks fuel)
                   dir depth e files)
    by (unfold visit; rewrite !IH; reflexivity).
  rewrite Hv. destruct (visit _ _ _ _ _ _ _ _ _ _); [apply IHl | reflexivity].
Qed.

(** X13.  Edge cases of [collectFiles]: a negative [maxDepth] returns the
    empty list without reading anything; a root that cannot be read returns
    the empty list; and a [maxDepth] of [NaN] (what [Number] makes of a
    word that is not a number) does not bound the walk at all. *)
Theorem collectFiles_edge_cases
  (rt : Runtime) (fs : FileSystem) (cwd : path) (fuel : nat) (root : string)
  (excludeRegexes : list (RegExp rt)) (followSymlinks : bool) :
  (forall bound, (bound < 0)%Z ->
     collectFiles rt fs cwd (S fuel) root excludeRegexes (JFin bound)
                  followSymlinks = Some [])
  /\ (forall maxDepth, fs_readdir fs (path_resolve cwd root) = None ->
        collectFiles rt fs cwd (S fuel) root excludeRegexes maxDepth
                     followSymlinks = Some [])
  /\ collectFiles rt fs cwd fuel root excludeRegexes JNaN followSymlinks
     = collectFiles rt fs cwd fuel root excludeRegexes JInf followSymlinks.
Proof.
  split; [|split].
  - intros bound Hb. unfold collectFiles. cbn [walk gt_num].
    destruct (Z.ltb_spec bound (Z.of_nat 0)); [reflexivity | simpl in *; lia].
  - intros maxDepth Hroot. unfold collectFiles. cbn [walk].
    rewrite Hroot. destruct (gt_num 0 maxDepth); reflexivity.
  - apply walk_NaN_is_unbounded.
Qed.

Lemma collectFiles_edge_cases_witness :
  collectFiles node_host scenario_fs cwd0 1 "/r" [] (JFin (-1)) false
  = Some []
  /\ collectFiles node_host scenario_fs cwd0 1 "/nowhere" [] JInf false
     = Some [].
Proof.
  destruct (collectFiles_edge_cases node_host scenario_fs cwd0 0 "/r" [] false)
    as [Hneg _].
  destruct (collectFiles_edge_cases node_host scenario_fs cwd0 0 "/nowhere"
              [] false) as [_ [Hroot _]].
  split; [apply Hneg; lia | apply Hroot; reflexivity].
Defined.

(* ================================================================== *)
(** * [buildContext]: the document is the blocks in order *)
(* ================================================================== *)

Lemma concat_nil_cons (x : string) (l : list string) :
  String.concat "" (x :: l) = (x ++ String.concat "" l)%string.
Proof.
  destruct l as [|y l]; simpl; [symmetry; apply append_nil_r | reflexivity].
Qed.


(* ================================================================== *)
(** * [main]: exit codes and the write *)
(* ================================================================== *)





(* ================================================================== *)
(** * [collectFiles]: no path is returned twice *)
(* ================================================================== *)

Section Fresh.
Variable rt : Runtime.
Variable fs : FileSystem.
Variable root : path.
Variable excludeRegexes : list (RegExp rt).
Variable maxDepth : jsnum.
Variable followSymlinks : bool.
Hypothesis Hnames : names_ok fs.
Hypothesis Hunique : names_unique fs.

Let walk_ := walk rt fs root excludeRegexes maxDepth followSymlinks.
Let visit_ := visit rt fs root excludeRegexes followSymlinks.

(** A call on [dir] only appends, what it appends lies below [dir], and no
    path is appended twice. *)
Let appends_fresh
  (w : path -> nat -> list FileRef -> option (list FileRef)) : Prop :=
  forall dir depth files files',
    w dir depth files = Some files' ->
    exists new, files' = files ++ new
                /\ Forall (fun f => exists nm, through dir nm f) new
                /\ NoDup (map full new).

Lemma visit_fresh
  (w : path -> nat -> list FileRef -> option (list FileRef))
  (dir : path) (depth : nat) (ent : Dirent) (files files' : list FileRef) :
  appends_fresh w ->
  valid_name (name ent) = true ->
  visit_ w dir depth ent files = Some files' ->
  exists new, files' = files ++ new
              /\ Forall (through dir (name ent)) new
              /\ NoDup (map full new).
Proof.
  intros Hw Hnm. unfold visit_, visit. rewrite (path_join_valid _ _ Hnm).
  assert (Hsame : Some files = Some files' ->
            exists new, files' = files ++ new
                        /\ Forall (through dir (name ent)) new
                        /\ NoDup (map full new)).
  { intros [= <-]. exists []. rewrite app_nil_r.
    repeat split; constructor. }
  assert (Hpush : forall r,
            Some (files ++ [{| full := dir ++ [name ent]; rel := r |}])
            = Some files' ->
            exists new, files' = files ++ new
                        /\ Forall (through dir (name ent)) new
                        /\ NoDup (map full new)).
  { intros r [= <-]. eexists. split; [reflexivity|]. split.
    - repeat constructor. exists []. reflexivity.
    - simpl. repeat constructor. intros []. }
  assert (Hrec : w (dir ++ [name ent]) (S depth) files = Some files' ->
            exists new, files' = files ++ new
                        /\ Forall (through dir (name ent)) new
                        /\ NoDup (map full new)).
  { intros H. destruct (Hw _ _ _ _ H) as (new & -> & Hall & Hnd).
    exists new. split; [reflexivity|]. split; [|exact Hnd].
    apply Forall_impl with (2 := Hall). intros f (nm & tail & Hf).
    exists (nm :: tail). rewrite Hf, <- app_assoc. reflexivity. }
  destruct (_ || _); [exact Hsame|].
  destruct (kind ent); try assumption; try apply Hpush.
  destruct followSymlinks; [|exact Hsame].
  destruct (fs_stat fs _) as [[| |]|]; try assumption; try apply Hpush.
  destruct (fs_realpath fs _); [|exact Hsame].
  destruct (negb _); assumption.
Qed.

Lemma for_of_fresh
  (w : path -> nat -> list FileRef -> option (list FileRef))
  (dir : path) (depth : nat) (l : list Dirent) :
  appends_fresh w ->
  Forall (fun e => valid_name (name e) = true) l ->
  NoDup (map name l) ->
  forall files files',
    for_of (visit_ w dir depth) l files = Some files' ->
    exists new, files' = files ++ new
                /\ Forall (fun f => exists e, In e l /\ through dir (name e) f)
                          new
                /\ NoDup (map full new).
Proof.
  intros Hw. induction l as [|e l IH]; intros Hvalid Hnd files files'.
  - intros [= <-]. exists []. rewrite app_nil_r. repeat split; constructor.
  - cbn [for_of]. inversion Hvalid as [|? ? He Hl]; subst.
    simpl in Hnd. inversion Hnd as [|? ? Hfresh Hnd']; subst.
    destruct (visit_ w dir depth e files) as [files1|] eqn:Ev; [|discriminate].
    destruct (visit_fresh _ _ _ _ _ _ Hw He Ev) as (new1 & -> & Hall1 & Hnd1).
    intros Hrest.
    destruct (IH Hl Hnd' _ _ Hrest) as (new2 & -> & Hall2 & Hnd2).
    exists (new1 ++ new2). split; [symmetry; apply app_assoc|]. split.
    + apply Forall_app. split.
      * apply Forall_impl with (2 := Hall1). intros f Hf.
        exists e. split; [left; reflexivity | exact Hf].
      * apply Forall_impl with (2 := Hall2). intros f (e' & Hin & Hf).
        exists e'. split; [right; exact Hin | exact Hf].
    + rewrite map_app. apply NoDup_app; try assumption.
      intros p Hp1 Hp2.
      apply in_map_iff in Hp1 as (f1 & <- & Hf1).
      apply in_map_iff in Hp2 as (f2 & Heq & Hf2).
      rewrite Forall_forall in Hall1, Hall2.
      destruct (Hall1 f1 Hf1) as (t1 & H1).
      destruct (Hall2 f2 Hf2) as (e' & Hin & t2 & H2).
      rewrite H1, H2 in Heq. apply app_inv_head in Heq.
      injection Heq as Hname _.
      apply Hfresh. rewrite <- Hname. apply in_map, Hin.
Qed.

Lemma walk_fresh (fuel : nat) : appends_fresh (walk_ fuel).
Proof.
  induction fuel as [|fuel IH]; intros dir depth files files';
    [discriminate|].
  unfold walk_. cbn [walk]. fold (walk_ fuel). fold visit_.
  assert (Hsame : Some files = Some files' ->
            exists new, files' = files ++ new
                        /\ Forall (fun f => exists nm, through dir nm f) new
                        /\ NoDup (map full new)).
  { intros [= <-]. exists []. rewrite app_nil_r. repeat split; constructor. }
  destruct (gt_num depth maxDepth); [exact Hsame|].
  destruct (fs_readdir fs dir) as [entries|] eqn:E; [|exact Hsame].
  intros H. apply for_of_fresh in H; try exact IH.
  - destruct H as (new & -> & Hall & Hnd). exists new.
    split; [reflexivity|]. split; [|exact Hnd].
    apply Forall_impl with (2 := Hall). intros f (e & _ & Hf).
    exists (name e). exact Hf.
  - apply sort_by_Forall, (Hnames _ _ E).
  - apply (Permutation_NoDup
             (Permutation_map name
                (Permutation_sym (sort_by_perm rt name entries)))).
    apply (Hunique _ _ E).
Qed.
End Fresh.

(** X17.  [collectFiles] returns no absolute path twice, on every file
    system whose directories list each name once, links and cycles
    included: the paths are built from the names of the entries, and every
    directory is entered once per path. *)
Theorem collectFiles_returns_each_path_once
  (rt : Runtime) (fs : FileSystem) (cwd : path) (fuel : nat) (root : string)
  (excludeRegexes : list (RegExp rt)) (maxDepth : jsnum)
  (followSymlinks : bool) (files : list FileRef) :
  names_ok fs ->
  names_unique fs ->
  collectFiles rt fs cwd fuel root excludeRegexes maxDepth followSymlinks
  = Some files ->
  NoDup (map full files).
Proof.
  intros Hnames Hunique Hrun.
  destruct (walk_fresh rt fs (path_resolve cwd root) excludeRegexes maxDepth
              followSymlinks Hnames Hunique fuel _ _ _ _ Hrun)
    as (new & -> & _ & Hnd).
  exact Hnd.
Qed.

(* ================================================================== *)
(** * [collectFiles]: the fuel is only a bound *)
(* ================================================================== *)

Lemma for_of_more {S E : Type} (body body' : E -> S -> option S) (l : list E) :
  (forall e s s', body e s = Some s' -> body' e s = Some s') ->
  forall s s', for_of body l s = Some s' -> for_of body' l s = Some s'.
Proof.
  intros Hb. induction l as [|e l IH]; intros s s'; simpl; [auto|].
  destruct (body e s) as [s1|] eqn:E1; [|discriminate].
  rewrite (Hb _ _ _ E1). apply IH.
Qed.

Lemma walk_more_fuel (rt : Runtime) (fs : FileSystem) (root : path)
  (excludeRegexes : list (RegExp rt)) (maxDepth : jsnum)
  (followSymlinks : bool) (fuel : nat) :
  forall fuel' dir depth files files',
    fuel <= fuel' ->
    walk rt fs root excludeRegexes maxDepth followSymlinks fuel dir depth files
    = Some files' ->
    walk rt fs root excludeRegexes maxDepth followSymlinks fuel' dir depth files
    = Some files'.
Proof.
  induction fuel as [|fuel IH]; intros fuel' dir depth files files' Hle;
    [discriminate|].
  destruct fuel' as [|fuel']; [lia|].
  cbn [walk]. destruct (gt_num depth maxDepth); [auto|].
  destruct (fs_readdir fs dir); [|auto].
  apply for_of_more. intros e s s'. unfold visit.
  destruct (_ || _); [auto|].
  destruct (kind e); auto; try (apply IH; lia).
  destruct followSymlinks; [|auto].
  destruct (fs_stat fs _) as [[| |]|]; auto.
  destruct (fs_realpath fs _); [|auto].
  destruct (negb _); [auto | apply IH; lia].
Qed.

(** X18.  A finite [maxDepth] ends the walk on every file system, links
    that form cycles included: [collectFiles] returns a list, and the list
    is the same however many nested calls beyond [maxDepth + 2] it is
    allowed. *)
Theorem collectFiles_finite_depth_returns
  (rt : Runtime) (fs : FileSystem) (cwd : path) (root : string)
  (excludeRegexes : list (RegExp rt)) (bound : Z) (followSymlinks : bool) :
  exists files,
    forall fuel, S (Z.to_nat (bound + 1)) <= fuel ->
      collectFiles rt fs cwd fuel root excludeRegexes (JFin bound)
                   followSymlinks = Some files.
Proof.
  destruct (collectFiles_returns_for_finite_depth rt fs cwd root
              excludeRegexes bound followSymlinks) as [files H].
  exists files. intros fuel Hle. unfold collectFiles in *.
  apply (walk_more_fuel _ _ _ _ _ _ _ _ _ _ _ _ Hle H).
Qed.

(* ================================================================== *)
(** * [parseArgs]: words that are not options *)
(* ================================================================== *)

Lemma eqb_not_an_option (c : ascii) (w : string) :
  Ascii.eqb c "-" = false ->
  forall p, String.eqb (String c w) (String "-" p) = false.
Proof. intros Hc p. cbn [String.eqb]. rewrite Hc. reflexivity. Qed.

Lemma startsWith_not_an_option (c : ascii) (w : string) :
  Ascii.eqb c "-" = false ->
  forall p, startsWith (String c w) (String "-" p) = false.
Proof.
  intros Hc p. unfold startsWith. cbn [String.prefix].
  destruct (ascii_dec "-" c) as [<- | _]; [discriminate | reflexivity].
Qed.

(** X19.  A word that does not start with a dash where an option is
    expected is skipped without a trace: [merge-to-md ./src] parses like
    [merge-to-md], so the folder given without [-i] is not taken as
    input. *)
Theorem parseArgs_ignores_positional_words
  (args : Args) (c : ascii) (w : string) (rest : list string) :
  Ascii.eqb c "-" = false ->
  parse_loop args (String c w :: rest) = parse_loop args rest.
Proof.
  intros Hc. cbn [parse_loop].
  pose proof (eqb_not_an_option c w Hc) as He.
  pose proof (startsWith_not_an_option c w Hc) as Hs.
  rewrite !He. cbn [orb]. unfold parse_key_value. rewrite !Hs. reflexivity.
Qed.

Lemma parseArgs_ignores_positional_words_witness :
  parseArgs ["node"; "merge-to-md"; "./src"] = parseArgs ["node"; "merge-to-md"].
Proof.
  apply (parseArgs_ignores_positional_words _ "."%char "/src" []).
  reflexivity.
Defined.

(* ================================================================== *)
(** * File systems given by a tree: names are listed once *)
(* ================================================================== *)

Lemma distinct_names_NoDup (l : list string) :
  distinct_names l = true -> NoDup l.
Proof.
  induction l as [|x l IH]; simpl; intros H; constructor.
  - apply andb_true_iff in H as [H _]. apply negb_true_iff in H.
    intros Hin. assert (existsb (String.eqb x) l = true); [|congruence].
    apply existsb_exists. exists x. split; [exact Hin | apply String.eqb_refl].
  - apply andb_true_iff in H as [_ H]. apply IH, H.
Qed.

Lemma world_names_unique_child (es : list (string * Node)) (s : string)
  (c : Node) :
  world_names_unique (NDir es) = true ->
  lookup_child s es = Some c ->
  world_names_unique c = true.
Proof.
  cbn [world_names_unique]. intros H.
  apply andb_true_iff in H as [_ H].
  induction es as [|[k n] es IH]; simpl; [discriminate|].
  apply andb_true_iff in H as [Hn Hes].
  destruct (String.eqb k s); [intros [= <-]; exact Hn | apply IH, Hes].
Qed.

Lemma descend_names_unique (follow : path -> option (path * Node)) :
  (forall q r n, follow q = Some (r, n) -> world_names_unique n = true) ->
  forall segs cur real r n,
    world_names_unique cur = true ->
    descend follow cur real segs = Some (r, n) ->
    world_names_unique n = true.
Proof.
  intros Hfollow.
  induction segs as [|s rest IH]; intros cur real r n Hcur;
    destruct cur as [content|es|target]; simpl;
    try discriminate; try (apply Hfollow).
  - intros [= _ <-]. exact Hcur.
  - intros [= _ <-]. exact Hcur.
  - destruct (lookup_child s es) as [c|] eqn:E; [|discriminate].
    apply IH, (world_names_unique_child es s c Hcur E).
Qed.

Lemma fs_of_world_names_unique (hops : nat) (w : Node) :
  world_names_unique w = true -> names_unique (fs_of_world hops w).
Proof.
  intros Hw.
  assert (Hres : forall h p r n, resolve h w p = Some (r, n) ->
                                 world_names_unique n = true).
  { induction h as [|h IH]; intros p r n; simpl;
      apply descend_names_unique; try exact Hw.
    - discriminate.
    - exact IH. }
  intros p es. simpl.
  destruct (resolve hops w p) as [[r [c|es'|t]]|] eqn:E; try discriminate.
  intros [= <-]. rewrite map_map. cbn [name dirent_of].
  apply distinct_names_NoDup.
  pose proof (Hres _ _ _ _ E) as Hn. cbn [world_names_unique] in Hn.
  apply andb_true_iff in Hn as [Hn _]. exact Hn.
Qed.

Lemma collectFiles_returns_each_path_once_witness :
  NoDup (map full (map loop_ref (seq 0 4))).
Proof.
  apply (collectFiles_returns_each_path_once node_host
           (fs_of_world 3 loop_world) cwd0 4 "/r" [] JInf true).
  - apply fs_of_world_names_ok. reflexivity.
  - apply fs_of_world_names_unique. reflexivity.
  - reflexivity.
Defined.


(* ================================================================== *)
(** * [collectFiles]: the directories on the way to a file *)
(* ================================================================== *)

Lemma visited_ancestors (rt : Runtime) (fs : FileSystem) (root : path)
  (excludeRegexes : list (RegExp rt)) (maxDepth : jsnum)
  (followSymlinks : bool) (ds : list string) :
  visited rt fs root excludeRegexes maxDepth followSymlinks ds ->
  forall k, 0 < k <= List.length ds ->
    exists ent,
      listed fs root maxDepth (firstn (k - 1) ds) ent
      /\ firstn k ds = firstn (k - 1) ds ++ [name ent]
      /\ entered fs root followSymlinks ent (root ++ firstn k ds).
Proof.
  induction 1 as [|ds ent _ IH Hl _ _ He]; intros k Hk.
  - simpl in Hk. lia.
  - rewrite length_app in Hk. simpl in Hk.
    destruct (Nat.eq_dec k (List.length ds + 1)) as [-> | Hne].
    + exists ent.
      replace (List.length ds + 1 - 1) with (List.length ds) by lia.
      rewrite (firstn_all2 (n := List.length ds + 1) (ds ++ [name ent]))
        by (rewrite length_app; simpl; lia).
      rewrite firstn_app, firstn_all, Nat.sub_diag, firstn_O, app_nil_r.
      split; [exact Hl|]. split; [reflexivity | exact He].
    + destruct (IH k) as (e & Hle & Hfk & Hent); [lia|].
      exists e. rewrite !firstn_app.
      replace (k - List.length ds) with 0 by lia.
      replace (k - 1 - List.length ds) with 0 by lia.
      rewrite firstn_O, !app_nil_r. auto.
Qed.

(** X20.  Every directory on the way from the root to a returned file was
    listed by its parent and entered for one of two reasons: the entry is a
    directory, or it is a symbolic link, [followSymlinks] is set, [stat]
    finds a directory behind it and its real path starts with the text of
    the root path.  A link whose real path does not start with the root is
    never entered. *)
Theorem collectFiles_enters_directories_and_guarded_links
  (rt : Runtime) (fs : FileSystem) (cwd : path) (fuel : nat) (root : string)
  (excludeRegexes : list (RegExp rt)) (maxDepth : jsnum)
  (followSymlinks : bool) (files : list FileRef) :
  names_ok fs ->
  collectFiles rt fs cwd fuel root excludeRegexes maxDepth followSymlinks
  = Some files ->
  forall f k,
    In f files -> 0 < k < List.length (rel_segments f) ->
    exists entries ent,
      fs_readdir fs (path_resolve cwd root ++ firstn (k - 1) (rel_segments f))
      = Some entries
      /\ In ent entries
      /\ firstn k (rel_segments f)
         = firstn (k - 1) (rel_segments f) ++ [name ent]
      /\ entered fs (path_resolve cwd root) followSymlinks ent
           (path_resolve cwd root ++ firstn k (rel_segments f)).
Proof.
  intros Hnames Hrun f k Hf Hk.
  pose proof (collectFiles_justified _ _ _ _ _ _ _ _ _ Hnames Hrun) as H.
  rewrite Forall_forall in H.
  destruct (justified_segments _ _ _ _ _ _ f (H f Hf))
    as (ds & ent & Hsegs & _ & Hds & _).
  rewrite Hsegs in Hk |- *. rewrite length_app in Hk. simpl in Hk.
  destruct (visited_ancestors _ _ _ _ _ _ ds Hds k)
    as (e & [_ (es & Hes & Hin)] & Hfk & Hent); [lia|].
  exists es, e. rewrite !firstn_app.
  replace (k - List.length ds) with 0 by lia.
  replace (k - 1 - List.length ds) with 0 by lia.
  rewrite firstn_O, !app_nil_r. auto.
Qed.

Lemma collectFiles_enters_directories_and_guarded_links_witness :
  exists entries ent,
    fs_readdir prefix_fs ["data"] = Some entries
    /\ In ent entries
    /\ ["link"] = [] ++ [name ent]
    /\ entered prefix_fs ["data"] true ent ["data"; "link"].
Proof.
  apply (collectFiles_enters_directories_and_guarded_links node_host
           prefix_fs cwd0 10 "/data" [] JInf true
           [{| full := ["data"; "a.txt"]; rel := "a.txt" |};
            {| full := ["data"; "link"; "secret.txt"];
               rel := "link/secret.txt" |}]
           (fs_of_world_names_ok MAXSYMLINKS prefix_world eq_refl) eq_refl
           {| full := ["data"; "link"; "secret.txt"];
              rel := "link/secret.txt" |} 1).
  - right. left. reflexivity.
  - simpl. lia.
Defined.
